(** * Distance-vector routing (distributed Bellman-Ford): the node logic

    A shallow embedding of [hop_info.py], [hops_map.py], [packet.py],
    [parse_links.py], [node.py] and [main.py], and the properties of the
    relaxation step [Node.update_table], of [Node.normalised], of the link
    parser and of the packets a node sends.

    Conventions of the embedding.
    - A Python [float] is an IEEE binary64 number: Rocq's primitive [float],
      with [<?], [=?] and [+] for Python's [<], [==] and [+].
    - A Python [dict] keeps its keys in insertion order and the loops of
      [node.py] depend on that order, so a dict is an association list with
      unique keys: assigning to a present key replaces the value in place,
      assigning to a new key appends.
    - A raised exception is a value of [exception]; code that mutates its
      table before it raises returns the table it has reached together
      with the exception.
    - The registry ([Node.network], a [Manager().dict()] in [main.py]) hands
      out copies of the nodes published in it: it is a dict of node values,
      passed explicitly. One task runs at a time: while a node relaxes, no
      other node writes to the registry or to the inboxes.
    - A file is what [open] and the iteration over it give: an exception,
      or lines followed, when reading fails, by an exception.
    - With a [queue.Queue] and a plain [dict] as registry, the types that
      [node.py] declares, tables are shared objects: the module [Objects]
      models them in a store.
    - Output written with [print] is not modelled. *)

From Stdlib Require Import List String Ascii Bool Arith ZArith Lia Floats DecimalString.
Import ListNotations.
Local Open Scope string_scope.
Local Open Scope list_scope.

Set Implicit Arguments.

(** ** Exceptions *)

Inductive exception : Type :=
| KeyError (key : string)         (* a subscript [d[key]] on a dict without [key] *)
| ValueError                      (* failed unpacking, [float()] of a non-number, [_hop_from] *)
| AttributeError (attr : string)  (* a field declared with [init=False] and not set yet *)
| OSError (class : string)        (* [open()] or a read that fails: [FileNotFoundError], ... *)
| UnicodeDecodeError.             (* bytes of a file that are not text in its encoding *)

(** What a call leaves behind: a value, or an exception. *)
Inductive result (A : Type) : Type :=
| Ok (a : A)
| Raise (e : exception).
Arguments Ok {A} a.
Arguments Raise {A} e.

(** ** Python's [dict], insertion-ordered *)

Module Dict.

Section Dict.
Variable V : Type.

Definition t : Type := list (string * V).

Definition empty : t := [].

(** [k in d] *)
Fixpoint contains (d : t) (k : string) : bool :=
  match d with
  | [] => false
  | (k', _) :: d' => if String.eqb k' k then true else contains d' k
  end.

(** [d.get(k)]: the value under [k], if any. *)
Fixpoint get (d : t) (k : string) : option V :=
  match d with
  | [] => None
  | (k', v) :: d' => if String.eqb k' k then Some v else get d' k
  end.

(** [d[k]], which raises [KeyError(k)] on an absent key. *)
Definition getitem (d : t) (k : string) : result V :=
  match get d k with
  | Some v => Ok v
  | None => Raise (KeyError k)
  end.

(** [d[k] = v]: in place for a present key, at the end for a new one. *)
Fixpoint setitem (d : t) (k : string) (v : V) : t :=
  match d with
  | [] => [(k, v)]
  | (k', v') :: d' =>
      if String.eqb k' k then (k', v) :: d' else (k', v') :: setitem d' k v
  end.

(** Iteration order: [for k in d], [d.values()], [d.items()]. *)
Definition keys (d : t) : list string := List.map fst d.
Definition values (d : t) : list V := List.map snd d.
Definition items (d : t) : list (string * V) := d.

(** The invariant of a dict: no key twice. *)
Definition wf (d : t) : Prop := NoDup (keys d).

End Dict.

Arguments empty {V}.

End Dict.

(** ** [hop_info.py] *)

Module HopInfo.

(** The dataclass [HopInfo]: the constructor stores its arguments as given. *)
Record t : Type := Build { next_hop : string; best_distance : float }.

End HopInfo.

(** ** [hops_map.py] *)

Module HopsMap.

Definition t : Type := Dict.t HopInfo.t.

(** [self[node_name].best_distance] *)
Definition distance_to (self : t) (node_name : string) : result float :=
  match Dict.getitem self node_name with
  | Ok hop => Ok (HopInfo.best_distance hop)
  | Raise e => Raise e
  end.

(** [self[node_name].next_hop] *)
Definition pass_through (self : t) (node_name : string) : result string :=
  match Dict.getitem self node_name with
  | Ok hop => Ok (HopInfo.next_hop hop)
  | Raise e => Raise e
  end.

End HopsMap.

(** ** [packet.py] *)

Module Packet.

(** The dataclass [Packet]; [params] defaults to [None]. *)
Record t : Type := Build {
  header : string;
  content : HopsMap.t;
  params : option (list string)
}.

End Packet.

(** ** [node.py]: the node and its relaxation step *)

Module Node.

(** The dataclass [Node]. [queue] is the number of the node's inbox, unset
    until [with_queue]; the field [network] is the shared registry, which
    the functions below take as an argument. *)
Record t : Type := Build { name : string; map : HopsMap.t; queue : option nat }.

(** [self.with_queue(queue)] *)
Definition with_queue (self : t) (q : nat) : t := Build (name self) (map self) (Some q).

Definition registry : Type := Dict.t t.

(** [self.map.distance_to(node_name)] *)
Definition distance_to (self : t) (node_name : string) : result float :=
  HopsMap.distance_to (map self) node_name.

(** *** The statements of [update_table]

    They run on the node's table ([proxy.map]) and the local [edited]; a
    statement that raises leaves both as they are at that point. *)

Record locals : Type := Locals { table : HopsMap.t; edited : bool }.

Definition M (A : Type) : Type := locals -> locals * result A.

Definition ret {A} (a : A) : M A := fun s => (s, Ok a).

Definition bind {A B} (c : M A) (k : A -> M B) : M B :=
  fun s =>
    match c s with
    | (s', Ok a) => k a s'
    | (s', Raise e) => (s', Raise e)
    end.

(** An expression that reads the table and may raise. *)
Definition eval {A} (f : HopsMap.t -> result A) : M A :=
  fun s => (s, f (table s)).

(** [proxy.map[k] = hop] *)
Definition assign (k : string) (hop : HopInfo.t) : M unit :=
  fun s => (Locals (Dict.setitem (table s) k hop) (edited s), Ok tt).

(** [edited = True] *)
Definition mark_edited : M unit :=
  fun s => (Locals (table s) true, Ok tt).

(** [for x in xs: body(x)]; an exception ends the loop. *)
Fixpoint for_each {A} (xs : list A) (body : A -> M unit) : M unit :=
  match xs with
  | [] => ret tt
  | x :: xs' => bind (body x) (fun _ => for_each xs' body)
  end.

End Node.

Declare Scope py_scope.
Delimit Scope py_scope with py.
Notation "x <- c ;; k" := (Node.bind c (fun x => k))
  (at level 61, c at next level, right associativity) : py_scope.
Notation "c ;;; k" := (Node.bind c (fun _ => k))
  (at level 61, right associativity) : py_scope.

Module Relax.
Import Node.
Local Open Scope py_scope.
Local Open Scope float_scope.

(** Python's [not x] on a float: [x == 0.0], which holds of both zeros and
    of nothing else. *)
Definition falsy (x : float) : bool := (x =? 0)%float.

(** The body of the inner loop, lines 174-198, for one [destination] and one
    key [node] of the received table. [current_distance] is the value read
    before the inner loop; the body never assigns it. *)
Definition relax_pair (network : registry) (destination : string)
    (current_distance : float) (node : string) : M unit :=
  midway <- eval (fun _ => Dict.getitem network node) ;;
  distance_to_midway <- eval (fun m => HopsMap.distance_to m node) ;;
  midway_to_node <- eval (fun _ => distance_to midway destination) ;;
  let new_distance := distance_to_midway + midway_to_node in
  if falsy midway_to_node then ret tt
  else if new_distance <? current_distance then
    target <- eval (fun _ => Dict.getitem network destination) ;;
    hop <- eval (fun _ => HopsMap.pass_through (map target) (name midway)) ;;
    assign destination (HopInfo.Build hop new_distance) ;;;
    mark_edited
  else ret tt.

(** The body of the outer loop, lines 170-198. *)
Definition relax_destination (network : registry) (neighbour_table : HopsMap.t)
    (destination : string) : M unit :=
  current_distance <- eval (fun m => HopsMap.distance_to m destination) ;;
  for_each (Dict.keys neighbour_table) (relax_pair network destination current_distance).

(** Lines 169-198: [for destination in proxy.map: ...]. The loop assigns
    to present keys only, so the keys it walks are those at entry. *)
Definition relax_loop (network : registry) (neighbour_table : HopsMap.t) : M unit :=
  fun s => for_each (Dict.keys (table s)) (relax_destination network neighbour_table) s.

(** The loop from a node's table with [edited = False], lines 165-198. *)
Definition relax (network : registry) (self : t) (packet : Packet.t)
  : locals * result unit :=
  relax_loop network (Packet.content packet) (Locals (map self) false).

End Relax.

(** *** Neighbours, normalisation, packets *)

Module Actor.
Import Node.
Local Open Scope float_scope.

(** The property [neighbours]: the nodes of the registry, in its order,
    whose name is not [self.name]. *)
Definition neighbours (self : t) (network : registry) : list t :=
  filter (fun node => negb (String.eqb (name self) (name node))) (Dict.values network).

(** The loop of [normalised], over a list of nodes, on the table. *)
Fixpoint extend (m : HopsMap.t) (nodes : list t) : HopsMap.t :=
  match nodes with
  | [] => m
  | node :: rest =>
      if Dict.contains m (name node) then extend m rest
      else extend (Dict.setitem m (name node) (HopInfo.Build (name node) infinity)) rest
  end.

(** [self.normalised()] *)
Definition normalised (self : t) (network : registry) : t :=
  Build (name self) (extend (map self) (neighbours self network)) (queue self).

Definition newline : string := String (ascii_of_nat 10) EmptyString.

(** The decimal text of an integer, as an f-string prints it. *)
Definition str_of_int (z : Z) : string := NilZero.string_of_int (Z.to_int z).

(** The property [dummy_packet]; [now] is what [time_ns()] returns. *)
Definition dummy_packet (self : t) (now : Z) : Packet.t :=
  Packet.Build
    ("Message from: " ++ name self ++ "." ++ newline ++ "Time: " ++ str_of_int now ++ newline)
    (map self) None.

(** *** The shared state and the actor loop *)

(** The registry, the inboxes by number, and the readings [time_ns()] has
    still to return (0 once they are used up). *)
Record world : Type := World {
  network : registry;
  queues : nat -> list Packet.t;
  clock : list Z
}.

(** [queue.put(packet)] on inbox [q] *)
Definition put (queues : nat -> list Packet.t) (q : nat) (packet : Packet.t)
  : nat -> list Packet.t :=
  fun i => if Nat.eqb i q then queues i ++ [packet] else queues i.

(** What is left of inbox [q] after [queue.get()] *)
Definition pop (queues : nat -> list Packet.t) (q : nat) : nat -> list Packet.t :=
  fun i => if Nat.eqb i q then tl (queues i) else queues i.

(** [self.and_send(destination, packet=packet)] *)
Definition and_send (destination : t) (packet : Packet.t) (w : world) : result world :=
  match queue destination with
  | None => Raise (AttributeError "queue")
  | Some q => Ok (World (network w) (put (queues w) q packet) (clock w))
  end.

(** The loop of [send_packets], lines 150-152; packets already put stay
    in their inboxes when a later [and_send] raises. *)
Fixpoint send_all (destinations : list t) (packet : Packet.t) (w : world)
  : world * result unit :=
  match destinations with
  | [] => (w, Ok tt)
  | neighbour :: rest =>
      match and_send neighbour packet w with
      | Raise e => (w, Raise e)
      | Ok w' => send_all rest packet w'
      end
  end.

(** How a task of the node ends. *)
Inductive status : Type :=
| Done
| Raised (e : exception)
| OutOfFuel.

Record run : Type := Run { self_of : t; world_of : world; status_of : status }.

(** [send_packets], [wait_for_packets] and [update_table] call one another;
    [fuel] bounds the calls that are still allowed. *)
Fixpoint send_packets (fuel : nat) (self : t) (packet : option Packet.t) (w : world) : run :=
  match fuel with
  | O => Run self w OutOfFuel
  | S fuel' =>
      let (packet, w) :=
        match packet with
        | Some p => (p, w)
        | None =>
            (dummy_packet self (hd 0%Z (clock w)),
             World (network w) (queues w) (tl (clock w)))
        end in
      match send_all (neighbours self (network w)) packet w with
      | (w, Raise e) => Run self w (Raised e)
      | (w, Ok _) => wait_for_packets fuel' self w
      end
  end

with wait_for_packets (fuel : nat) (self : t) (w : world) : run :=
  match fuel with
  | O => Run self w OutOfFuel
  | S fuel' =>
      match queue self with
      | None => Run self w (Raised (AttributeError "queue"))
      | Some q =>
          match queues w q with
          | [] => Run self w Done
          | packet :: _ =>
              let w := World (network w) (pop (queues w) q) (clock w) in
              let r := update_table fuel' self packet w in
              match status_of r with
              | Done => wait_for_packets fuel' (self_of r) (world_of r)
              | _ => r
              end
          end
      end
  end

with update_table (fuel : nat) (self : t) (packet : Packet.t) (w : world) : run :=
  match fuel with
  | O => Run self w OutOfFuel
  | S fuel' =>
      let (s, r) := Relax.relax (network w) self packet in
      let proxy := Build (name self) (table s) (queue self) in
      match r with
      | Raise e => Run proxy w (Raised e)
      | Ok _ =>
          let w := World (Dict.setitem (network w) (name self) proxy) (queues w) (clock w) in
          if edited s then send_packets fuel' proxy None w
          else Run proxy w Done
      end
  end.

End Actor.

(** ** Python's [str] methods used by the parser

    A string is its sequence of code points, all below 256. *)

Module Str.

(** [c.isspace()] for a code point below 256. *)
Definition isspace (c : ascii) : bool :=
  let n := nat_of_ascii c in
  (((9 <=? n) && (n <=? 13)) || ((28 <=? n) && (n <=? 32)) || (n =? 133) || (n =? 160))%nat.

Fixpoint lstrip (s : string) : string :=
  match s with
  | EmptyString => EmptyString
  | String c s' => if isspace c then lstrip s' else s
  end.

Fixpoint rstrip (s : string) : string :=
  match s with
  | EmptyString => EmptyString
  | String c s' =>
      match rstrip s' with
      | EmptyString => if isspace c then EmptyString else String c EmptyString
      | r => String c r
      end
  end.

(** [s.strip()] *)
Definition strip (s : string) : string := rstrip (lstrip s).

Fixpoint drop_last (s : string) : string :=
  match s with
  | EmptyString => EmptyString
  | String c EmptyString => EmptyString
  | String c s' => String c (drop_last s')
  end.

(** [s[1:-1]] *)
Definition slice_1_m1 (s : string) : string :=
  match s with
  | EmptyString => EmptyString
  | String _ s' => drop_last s'
  end.

(** [s.split(sep)] for a separator of one character: every occurrence
    splits, and empty fields are kept. *)
Fixpoint split (sep : ascii) (s : string) : list string :=
  match s with
  | EmptyString => [EmptyString]
  | String c s' =>
      if Ascii.eqb c sep then EmptyString :: split sep s'
      else
        match split sep s' with
        | [] => [String c EmptyString]
        | field :: fields => String c field :: fields
        end
  end.

End Str.

(** ** The parser: [HopInfo.parse_str], [parse_links], [Node.from_links] *)

Module Parse.

Section WithFloat.

(** Python's builtin [float] on a string: the number, or nothing where it
    raises [ValueError]. *)
Variable py_float : string -> option float.

(** [HopInfo.parse_str(source)] *)
Definition parse_str (source : string) : result HopInfo.t :=
  let normalised := Str.strip (Str.slice_1_m1 source) in
  match Str.split "," normalised with
  | [hop; distance] =>
      match py_float distance with
      | Some cost => Ok (HopInfo.Build hop cost)
      | None => Raise ValueError
      end
  | _ => Raise ValueError
  end.

(** [[HopInfo.parse_str(link) for link in links]] *)
Fixpoint parse_all (links : list string) : result (list HopInfo.t) :=
  match links with
  | [] => Ok []
  | link :: rest =>
      match parse_str link with
      | Raise e => Raise e
      | Ok hop =>
          match parse_all rest with
          | Raise e => Raise e
          | Ok hops => Ok (hop :: hops)
          end
      end
  end.

(** The [match] of [parse_links] on one line: the matrix of the line, or
    nothing for a line that the second case ignores. *)
Definition parse_line (line : string) : result (option (string * list HopInfo.t)) :=
  match Str.split " " (Str.strip line) with
  | name :: ((_ :: _) as links) =>
      match parse_all links with
      | Raise e => Raise e
      | Ok hops => Ok (Some (name, HopInfo.Build name 0 :: hops))
      end
  | _ => Ok None
  end.

(** [parse_links], on the lines that iterating over the open file yields. *)
Fixpoint parse_lines (lines : list string) (matrices : Dict.t (list HopInfo.t))
  : result (Dict.t (list HopInfo.t)) :=
  match lines with
  | [] => Ok matrices
  | line :: rest =>
      match parse_line line with
      | Raise e => Raise e
      | Ok None => parse_lines rest matrices
      | Ok (Some (name, matrix)) => parse_lines rest (Dict.setitem matrices name matrix)
      end
  end.

Definition parse_links (lines : list string) : result (Dict.t (list HopInfo.t)) :=
  parse_lines lines Dict.empty.

End WithFloat.

(** [_hop_from(_name, _hops)]: the first hop of the list with that name. *)
Fixpoint _hop_from (_name : string) (_hops : list HopInfo.t) : result HopInfo.t :=
  match _hops with
  | [] => Raise ValueError
  | hop :: rest =>
      if String.eqb (HopInfo.next_hop hop) _name then Ok hop else _hop_from _name rest
  end.

(** The dict comprehension of [from_links]:
    [{hop.next_hop: _hop_from(hop.next_hop, hops) for hop in hops}]. *)
Fixpoint comprehension (todo hops : list HopInfo.t) (acc : HopsMap.t) : result HopsMap.t :=
  match todo with
  | [] => Ok acc
  | hop :: rest =>
      match _hop_from (HopInfo.next_hop hop) hops with
      | Raise e => Raise e
      | Ok first => comprehension rest hops (Dict.setitem acc (HopInfo.next_hop hop) first)
      end
  end.

Definition table_of (hops : list HopInfo.t) : result HopsMap.t :=
  comprehension hops hops Dict.empty.

(** [Node.from_links(links)]; the nodes have no queue yet. *)
Fixpoint from_links (links : list (string * list HopInfo.t)) : result (list Node.t) :=
  match links with
  | [] => Ok []
  | (name, hops) :: rest =>
      match table_of hops with
      | Raise e => Raise e
      | Ok m =>
          match from_links rest with
          | Raise e => Raise e
          | Ok nodes => Ok (Node.Build name m None :: nodes)
          end
      end
  end.

End Parse.

(** ** [parse_links.py] on a file *)

Module File.

(** An open file is what iterating over it yields, in order: a line, or
    the exception that reading raises (an [OSError], or
    [UnicodeDecodeError] on bytes that are not text), after which nothing
    more is read. *)
Definition source : Type := list (result string).

(** What [open(filename)] gives: the open file, or the exception it raises
    ([FileNotFoundError], [PermissionError] and the other subclasses of
    [OSError]). *)
Definition system : Type := string -> result source.

Section WithFloat.

Variable py_float : string -> option float.

(** Lines 20-31: the loop over the open file. *)
Fixpoint read_links (lines : source) (matrices : Dict.t (list HopInfo.t))
  : result (Dict.t (list HopInfo.t)) :=
  match lines with
  | [] => Ok matrices
  | Raise e :: _ => Raise e
  | Ok line :: rest =>
      match Parse.parse_line py_float line with
      | Raise e => Raise e
      | Ok None => read_links rest matrices
      | Ok (Some (name, matrix)) => read_links rest (Dict.setitem matrices name matrix)
      end
  end.

(** [parse_links(filename)], lines 17-33; leaving the [with] block closes
    the file and lets the exception through. *)
Definition parse_links (fs : system) (filename : string)
  : result (Dict.t (list HopInfo.t)) :=
  match fs filename with
  | Raise e => Raise e
  | Ok lines => read_links lines Dict.empty
  end.

End WithFloat.

End File.

(** ** Python's [float] on a string

    The grammar is that of the language reference ([floatvalue]), on
    strings of code points below 256, where the decimal digits are
    [0]-[9]; the value is the binary64 number nearest to the decimal one,
    ties to even. *)

Module PyFloat.

Definition digit (c : ascii) : option Z :=
  let n := nat_of_ascii c in
  if ((48 <=? n) && (n <=? 57))%nat then Some (Z.of_nat (n - 48)) else None.

(** [digitpart ::= digit (["_"] digit)*]: its value and its number of
    digits. [expect_digit] holds at the start and after an underscore. *)
Fixpoint digitpart (s : string) (expect_digit : bool) (value : Z) (count : Z)
  : option (Z * Z) :=
  match s with
  | EmptyString => if expect_digit then None else Some (value, count)
  | String c s' =>
      match digit c with
      | Some d => digitpart s' false (10 * value + d)%Z (count + 1)%Z
      | None =>
          if (Ascii.eqb c "_" && negb expect_digit)%bool
          then digitpart s' true value count
          else None
      end
  end.

Definition lower (c : ascii) : ascii :=
  let n := nat_of_ascii c in
  if ((65 <=? n) && (n <=? 90))%nat then ascii_of_nat (n + 32) else c.

Fixpoint lowercase (s : string) : string :=
  match s with
  | EmptyString => EmptyString
  | String c s' => String (lower c) (lowercase s')
  end.

(** The text before the first [e] or [E], and the text after it. *)
Fixpoint split_exponent (s : string) : string * option string :=
  match s with
  | EmptyString => (EmptyString, None)
  | String c s' =>
      if (Ascii.eqb c "e" || Ascii.eqb c "E")%bool then (EmptyString, Some s')
      else let (m, e) := split_exponent s' in (String c m, e)
  end.

(** [number ::= [digitpart] "." digitpart | digitpart ["."]]: the digits
    as one integer, how many they are, and how many follow the point. *)
Definition number (s : string) : option (Z * Z * Z) :=
  match Str.split "." s with
  | [whole] =>
      match digitpart whole true 0 0 with
      | Some (m, n) => Some (m, n, 0%Z)
      | None => None
      end
  | [whole; fraction] =>
      match whole, fraction with
      | EmptyString, EmptyString => None
      | _, EmptyString =>
          match digitpart whole true 0 0 with
          | Some (m, n) => Some (m, n, 0%Z)
          | None => None
          end
      | EmptyString, _ =>
          match digitpart fraction true 0 0 with
          | Some (m, n) => Some (m, n, n)
          | None => None
          end
      | _, _ =>
          match digitpart whole true 0 0 with
          | Some (m, n) =>
              match digitpart fraction true m n with
              | Some (m', n') => Some (m', n', (n' - n)%Z)
              | None => None
              end
          | None => None
          end
      end
  | _ => None
  end.

(** [exponent ::= ("e" | "E") [sign] digitpart], after the letter. *)
Definition exponent (s : string) : option Z :=
  match s with
  | String "-" digits =>
      match digitpart digits true 0 0 with Some (e, _) => Some (- e)%Z | None => None end
  | String "+" digits =>
      match digitpart digits true 0 0 with Some (e, _) => Some e | None => None end
  | digits =>
      match digitpart digits true 0 0 with Some (e, _) => Some e | None => None end
  end.

(** The binary64 number nearest to [num / den], ties to even, for positive
    [num] and [den]: the quotient is taken with two bits more than the
    format keeps, the lower one recording a remainder. *)
Definition nearest (num den : Z) : float :=
  let s := Z.max 0 (56 + Z.log2 den - Z.log2 num) in
  let (q, r) := Z.div_eucl (num * 2 ^ s) den in
  let sticky := if (r =? 0)%Z then 0%Z else 1%Z in
  SF2Prim (binary_normalize prec emax (2 * q + sticky) (- s - 1) false).

(** The value of [mantissa * 10 ^ e10] for [digits] decimal digits. *)
Definition scale (mantissa digits e10 : Z) : float :=
  if (mantissa =? 0)%Z then zero
  else if (400 <? e10)%Z then infinity
  else if (e10 <? - 400 - digits)%Z then zero
  else if (0 <=? e10)%Z then nearest (mantissa * 10 ^ e10) 1
  else nearest mantissa (10 ^ (- e10)).

Definition absfloatvalue (body : string) : option float :=
  let word := lowercase body in
  if (String.eqb word "inf" || String.eqb word "infinity")%bool then Some infinity
  else if String.eqb word "nan" then Some nan
  else
    let (m, e) := split_exponent body in
    match number m with
    | None => None
    | Some (mantissa, digits, places) =>
        match e with
        | None => Some (scale mantissa digits (- places))
        | Some text =>
            match exponent text with
            | Some e10 => Some (scale mantissa digits (e10 - places))
            | None => None
            end
        end
    end.

(** The white space that [float] skips at both ends of its argument: the
    white space of C ([\t] to [\r] and the blank) and, as a string that is
    not ASCII has its Unicode white space turned into blanks first, U+0085
    and U+00A0. Unlike [str.strip], it does not skip U+001C to U+001F. *)
Definition isspace (c : ascii) : bool :=
  let n := nat_of_ascii c in
  (((9 <=? n) && (n <=? 13)) || (n =? 32) || (n =? 133) || (n =? 160))%nat.

Fixpoint lstrip (s : string) : string :=
  match s with
  | EmptyString => EmptyString
  | String c s' => if isspace c then lstrip s' else s
  end.

Fixpoint rstrip (s : string) : string :=
  match s with
  | EmptyString => EmptyString
  | String c s' =>
      match rstrip s' with
      | EmptyString => if isspace c then EmptyString else String c EmptyString
      | r => String c r
      end
  end.

(** [float(s)] for a string [s]: the number, or nothing where Python
    raises [ValueError]. *)
Definition float_of_str (s : string) : option float :=
  match rstrip (lstrip s) with
  | String "-" body => option_map PrimFloat.opp (absfloatvalue body)
  | String "+" body => absfloatvalue body
  | body => absfloatvalue body
  end.

End PyFloat.

(** ** [main.py]: building the registry *)

Module Main.
Import Node.

(** Lines 23-26: each node gets a queue of its own and is published. *)
Fixpoint publish (nodes : list t) (next_queue : nat) (network : registry) : registry :=
  match nodes with
  | [] => network
  | node :: rest =>
      publish rest (S next_queue)
        (Dict.setitem network (name node) (with_queue node next_queue))
  end.

(** Lines 28-31: [network.items()] is a copy taken before the loop; each
    node is normalised against the registry as it is when its turn comes. *)
Fixpoint normalise_all (items : list (string * t)) (network : registry) : registry :=
  match items with
  | [] => network
  | (key, node) :: rest =>
      normalise_all rest (Dict.setitem network key (Actor.normalised node network))
  end.

(** [main] up to the start of the workers, on the lines of the link file. *)
Definition setup (py_float : string -> option float) (lines : list string)
  : result registry :=
  match Parse.parse_links py_float lines with
  | Raise e => Raise e
  | Ok links =>
      match Parse.from_links (Dict.items links) with
      | Raise e => Raise e
      | Ok nodes =>
          let network := publish nodes 0 Dict.empty in
          Ok (normalise_all (Dict.items network) network)
      end
  end.





End Main.

(** ** Objects: which table a packet holds

    [Packet(header, self.map)] stores the table object of the node, and
    [queue.put] stores what it is given or a pickled copy of it, according
    to the queue. Here the tables live in a store and a node and a packet
    hold the address of a table, so that the two can be told apart. *)

Module Objects.

Definition address : Type := nat.

(** The table objects: [next] is the first address not in use. *)
Record store : Type := Store { cell : address -> HopsMap.t; next : address }.

Definition deref (h : store) (a : address) : HopsMap.t := cell h a.

(** A mutation of the object at [a], which becomes [m]. *)
Definition write (h : store) (a : address) (m : HopsMap.t) : store :=
  Store (fun b => if Nat.eqb b a then m else cell h b) (next h).

(** A new object with content [m]. *)
Definition alloc (h : store) (m : HopsMap.t) : store * address :=
  (Store (fun b => if Nat.eqb b (next h) then m else cell h b) (S (next h)), next h).

Record node : Type := MkNode { name : string; map : address; queue : option nat }.

Record packet : Type :=
  MkPacket { header : string; content : address; params : option (list string) }.

(** The node and the packet as values, read off the store. *)
Definition node_value (h : store) (n : node) : Node.t :=
  Node.Build (name n) (deref h (map n)) (queue n).

Definition packet_value (h : store) (p : packet) : Packet.t :=
  Packet.Build (header p) (deref h (content p)) (params p).

(** The property [dummy_packet]: the packet holds [self.map] itself. *)
Definition dummy_packet (self : node) (now : Z) : packet :=
  MkPacket
    ("Message from: " ++ name self ++ "." ++ Actor.newline ++ "Time: "
       ++ Actor.str_of_int now ++ Actor.newline)
    (map self) None.

(** The two queues a node can be given: a [queue.Queue], the type [node.py]
    declares, keeps the object that is put; the proxy of a
    [Manager().Queue()], which [main.py] passes, pickles it, and what is
    queued is a copy with a table of its own. *)
Inductive queue_kind : Type :=
| InProcess
| Managed.

Record world : Type := World {
  heap : store;
  queues : nat -> list packet
}.

Definition put (queues : nat -> list packet) (q : nat) (p : packet) : nat -> list packet :=
  fun i => if Nat.eqb i q then queues i ++ [p] else queues i.

(** [destination.queue.put(packet)] *)
Definition queue_put (kind : queue_kind) (q : nat) (p : packet) (w : world) : world :=
  match kind with
  | InProcess => World (heap w) (put (queues w) q p)
  | Managed =>
      let (h, copy) := alloc (heap w) (deref (heap w) (content p)) in
      World h (put (queues w) q (MkPacket (header p) copy (params p)))
  end.

(** [self.and_send(destination, packet=packet)] *)
Definition and_send (kind : queue_kind) (destination : node) (p : packet) (w : world)
  : result world :=
  match queue destination with
  | None => Raise (AttributeError "queue")
  | Some q => Ok (queue_put kind q p w)
  end.

(** The loop of [send_packets], lines 150-152. *)
Fixpoint send_all (kind : queue_kind) (destinations : list node) (p : packet) (w : world)
  : world * result unit :=
  match destinations with
  | [] => (w, Ok tt)
  | neighbour :: rest =>
      match and_send kind neighbour p w with
      | Raise e => (w, Raise e)
      | Ok w' => send_all kind rest p w'
      end
  end.

(** Lines 147-152 of [send_packets] with the default packet. *)
Definition broadcast (kind : queue_kind) (self : node) (now : Z)
    (neighbours : list node) (w : world) : world * result unit :=
  send_all kind neighbours (dummy_packet self now) w.

(** The registry as a node reads it. A plain [dict], the type [node.py]
    declares, holds the nodes themselves, whose tables are the objects of
    the store: a lookup reads a table as it is at that moment, the table
    being written included. The proxy of a [Manager().dict()], which
    [main.py] passes, hands out copies of the nodes as they were
    published. *)
Inductive registry : Type :=
| Live (nodes : Dict.t node)
| Published (copies : Node.registry).

(** What the lookups in the registry give while the store is [h]. *)
Definition registry_value (h : store) (network : registry) : Node.registry :=
  match network with
  | Live nodes => List.map (fun item => (fst item, node_value h (snd item))) nodes
  | Published copies => copies
  end.

(** The state of the loop: the store, and the local [edited]. *)
Definition state : Type := (store * bool)%type.

Fixpoint for_each {A : Type} (xs : list A) (body : A -> state -> state * result unit)
    (st : state) : state * result unit :=
  match xs with
  | [] => (st, Ok tt)
  | x :: rest =>
      match body x st with
      | (st', Ok _) => for_each rest body st'
      | (st', Raise e) => (st', Raise e)
      end
  end.

(** Lines 174-198 on the table object of [self]: the lookups read the
    store as it is, and the assignment [proxy.map[destination] = ...] is
    made in that object. *)
Definition relax_pair_in_place (network : registry) (self : node) (destination : string)
    (current_distance : float) (node : string) (st : state) : state * result unit :=
  let (h, edited) := st in
  let (s, r) :=
    Relax.relax_pair (registry_value h network) destination current_distance node
      (Node.Locals (deref h (map self)) edited) in
  ((write h (map self) (Node.table s), Node.edited s), r).

(** Lines 170-198. *)
Definition relax_destination_in_place (network : registry) (self : node)
    (neighbour_keys : list string) (destination : string) (st : state)
  : state * result unit :=
  match HopsMap.distance_to (deref (fst st) (map self)) destination with
  | Raise e => (st, Raise e)
  | Ok current_distance =>
      for_each neighbour_keys
        (relax_pair_in_place network self destination current_distance) st
  end.

(** The loop of [update_table], lines 165-198, on the table object of
    [self]. *)
Definition relax_in_place (network : registry) (self : node) (received : Packet.t)
    (w : world) : world * result unit :=
  let (st, r) :=
    for_each (Dict.keys (deref (heap w) (map self)))
      (relax_destination_in_place network self (Dict.keys (Packet.content received)))
      (heap w, false) in
  (World (fst st) (queues w), r).

End Objects.

(** ** Concrete networks used below *)

Module Examples.
Local Open Scope float_scope.

Definition hop (n : string) (c : float) : string * HopInfo.t := (n, HopInfo.Build n c).

(** Links A-B 1, A-C 2, A-D 10, B-C 1, B-D 3, C-D 5, as the tables are
    after [setup]: each starts with the node's own entry. *)
Definition tableA : HopsMap.t := [hop "A" 0; hop "B" 1; hop "C" 2; hop "D" 10].
Definition tableB : HopsMap.t := [hop "B" 0; hop "A" 1; hop "C" 1; hop "D" 3].
Definition tableC : HopsMap.t := [hop "C" 0; hop "A" 2; hop "B" 1; hop "D" 5].
Definition tableD : HopsMap.t := [hop "D" 0; hop "A" 10; hop "B" 3; hop "C" 5].

Definition nodeA : Node.t := Node.Build "A" tableA (Some 0%nat).
Definition nodeB : Node.t := Node.Build "B" tableB (Some 1%nat).
Definition nodeC : Node.t := Node.Build "C" tableC (Some 2%nat).
Definition nodeD : Node.t := Node.Build "D" tableD (Some 3%nat).

Definition net : Node.registry :=
  [("A", nodeA); ("B", nodeB); ("C", nodeC); ("D", nodeD)].

Definition packet_from (n : Node.t) : Packet.t := Actor.dummy_packet n 0.

(** The same links with C-D 2: through B and through C, D is at 4 of A. *)
Definition tableC' : HopsMap.t := [hop "C" 0; hop "A" 2; hop "B" 1; hop "D" 2].
Definition tableD' : HopsMap.t := [hop "D" 0; hop "A" 10; hop "B" 3; hop "C" 2].
Definition net' : Node.registry :=
  [("A", nodeA); ("B", nodeB); ("C", Node.Build "C" tableC' (Some 2%nat));
   ("D", Node.Build "D" tableD' (Some 3%nat))].

(** The tables once every distance is the shortest one. *)
Definition finalA : HopsMap.t :=
  [hop "A" 0; hop "B" 1; hop "C" 2; ("D", HopInfo.Build "B" 4)].
Definition finalB : HopsMap.t := [hop "B" 0; hop "A" 1; hop "C" 1; hop "D" 3].
Definition finalC : HopsMap.t :=
  [hop "C" 0; hop "A" 2; hop "B" 1; ("D", HopInfo.Build "B" 4)].
Definition finalD : HopsMap.t :=
  [hop "D" 0; ("A", HopInfo.Build "B" 4); hop "B" 3; ("C", HopInfo.Build "B" 4)].
Definition final_net : Node.registry :=
  [("A", Node.Build "A" finalA (Some 0%nat)); ("B", Node.Build "B" finalB (Some 1%nat));
   ("C", Node.Build "C" finalC (Some 2%nat)); ("D", Node.Build "D" finalD (Some 3%nat))].

(** B's table, handed over as it is and with every cost replaced by 99. *)
Definition forged_packet : Packet.t :=
  Packet.Build "forged" [hop "B" 99; hop "A" 99; hop "C" 99; hop "D" 99] None.

(** A packet that names a node Z unknown to A and to the registry, ahead
    of B's packet in the inbox of A. *)
Definition stray_packet : Packet.t := Packet.Build "stray" [hop "Z" 1] None.

Definition inbox_of_A : Actor.world :=
  Actor.World net
    (fun i => if Nat.eqb i 0 then [stray_packet; packet_from nodeB] else []) [].

(** Links that do not list the node A itself among its hops. *)
Definition bare_links : list (string * list HopInfo.t) :=
  [("A", [HopInfo.Build "B" 1]); ("B", [HopInfo.Build "B" 0; HopInfo.Build "A" 1])].

(** The four tables as objects 0 to 3, and the nodes that hold them. *)
Definition tables : Objects.store :=
  Objects.Store
    (fun a => match a with
              | 0 => tableA | 1 => tableB | 2 => tableC | _ => tableD
              end%nat) 4%nat.

Definition objA : Objects.node := Objects.MkNode "A" 0%nat (Some 0%nat).
Definition objB : Objects.node := Objects.MkNode "B" 1%nat (Some 1%nat).
Definition objC : Objects.node := Objects.MkNode "C" 2%nat (Some 2%nat).
Definition objD : Objects.node := Objects.MkNode "D" 3%nat (Some 3%nat).

Definition quiet : Objects.world := Objects.World tables (fun _ => []).

(** A sends its table to B, C and D, then receives B's and relaxes. *)
Definition A_sends (kind : Objects.queue_kind) : Objects.world :=
  fst (Objects.broadcast kind objA 0 [objB; objC; objD] quiet).

(** The registry that goes with the queue: the nodes themselves beside a
    [queue.Queue], their published copies beside the manager's queue. *)
Definition registry_of (kind : Objects.queue_kind) : Objects.registry :=
  match kind with
  | Objects.InProcess => Objects.Live [("A", objA); ("B", objB); ("C", objC); ("D", objD)]
  | Objects.Managed => Objects.Published net
  end.

Definition A_relaxes (kind : Objects.queue_kind) : Objects.world :=
  fst (Objects.relax_in_place (registry_of kind) objA (packet_from nodeB) (A_sends kind)).

(** A packet with the keys B and A only. *)
Definition two_keys : Packet.t := Packet.Build "two keys" [hop "B" 0; hop "A" 1] None.



End Examples.

(** ** Predicates of the statements *)

Section Predicates.
Import Node.
Local Open Scope float_scope.

(** The candidate of a pair [(n, d)] in a state: the via node, the local
    cost to it, its cost to [d]. *)
Definition lookups (network : registry) (s : locals) (d n : string)
    (midway : t) (to_via via_to_dest : float) : Prop :=
  Dict.get network n = Some midway /\
  HopsMap.distance_to (table s) n = Ok to_via /\
  distance_to midway d = Ok via_to_dest.

(** What the inner loop for [d] has done to a table [m0] that holds [d]:
    the keys stand, the other entries stand, and the entry of [d] stands or
    holds a candidate below [cur]. *)
Definition inner_inv (m0 : HopsMap.t) (d : string) (cur : float) (s : locals) : Prop :=
  Dict.keys (table s) = Dict.keys m0 /\
  (forall d', d' <> d -> Dict.get (table s) d' = Dict.get m0 d') /\
  (Dict.get (table s) d = Dict.get m0 d \/
   exists h, Dict.get (table s) d = Some h /\ (HopInfo.best_distance h <? cur) = true).



(** The tables are settled for a received table [nt] when every candidate
    is defined and none is below the entry it would replace. *)
Definition settled (network : registry) (m nt : HopsMap.t) : Prop :=
  forall d n, In d (Dict.keys m) -> In n (Dict.keys nt) ->
  exists hb midway tv vd,
    Dict.get m d = Some hb /\
    Dict.get network n = Some midway /\
    HopsMap.distance_to m n = Ok tv /\
    distance_to midway d = Ok vd /\
    (tv + vd <? HopInfo.best_distance hb) = false.

(** The entry [normalised] inserts for a node. *)
Definition placeholder (node : t) : string * HopInfo.t :=
  (name node, HopInfo.Build (name node) infinity).

(** The entry of a hop in a table, under its own name. *)
Definition entry (hop : HopInfo.t) : string * HopInfo.t := (HopInfo.next_hop hop, hop).

(** The hops whose name is neither in [seen] nor the name of an earlier
    hop of the list, each under its name, in the order of the list. *)
Fixpoint first_hops (seen : list string) (hops : list HopInfo.t) : HopsMap.t :=
  match hops with
  | [] => []
  | hop :: rest =>
      if in_dec string_dec (HopInfo.next_hop hop) seen then first_hops seen rest
      else entry hop :: first_hops (seen ++ [HopInfo.next_hop hop]) rest
  end.

End Predicates.

(** * Properties *)

(** ** Dicts *)

Section DictFacts.
Variable V : Type.
Implicit Types (d : Dict.t V) (k : string) (v : V).

Lemma contains_get d k :
  Dict.contains d k = match Dict.get d k with Some _ => true | None => false end.
Proof.
  induction d as [|[k' v'] d IH]; simpl; [reflexivity|].
  destruct (String.eqb k' k); [reflexivity|exact IH].
Qed.

Lemma contains_In d k : Dict.contains d k = true <-> In k (Dict.keys d).
Proof.
  induction d as [|[k' v'] d IH]; simpl.
  - split; [discriminate|tauto].
  - destruct (String.eqb_spec k' k) as [->|Hne].
    + split; auto.
    + rewrite IH. split; [auto|]. intros [H|H]; [contradiction|exact H].
Qed.

Lemma get_In d k : (exists v, Dict.get d k = Some v) <-> In k (Dict.keys d).
Proof.
  rewrite <- contains_In, contains_get.
  destruct (Dict.get d k) as [v|]; split; eauto; try discriminate.
  intros [v H]; discriminate.
Qed.

Lemma get_setitem_eq d k v : Dict.get (Dict.setitem d k v) k = Some v.
Proof.
  induction d as [|[k' v'] d IH]; simpl.
  - rewrite String.eqb_refl. reflexivity.
  - destruct (String.eqb k' k) eqn:E; simpl; rewrite E; [reflexivity|exact IH].
Qed.

Lemma get_setitem_ne d k k' v :
  k <> k' -> Dict.get (Dict.setitem d k v) k' = Dict.get d k'.
Proof.
  intros Hne. induction d as [|[k0 v0] d IH]; simpl.
  - destruct (String.eqb_spec k k'); [contradiction|reflexivity].
  - destruct (String.eqb_spec k0 k) as [->|Hk]; simpl.
    + destruct (String.eqb_spec k k'); [contradiction|reflexivity].
    + destruct (String.eqb k0 k'); [reflexivity|exact IH].
Qed.

(** Assigning to a present key keeps the keys and their order. *)
Lemma keys_setitem_present d k v :
  In k (Dict.keys d) -> Dict.keys (Dict.setitem d k v) = Dict.keys d.
Proof.
  induction d as [|[k0 v0] d IH]; simpl; [tauto|].
  intros H. destruct (String.eqb_spec k0 k) as [->|Hk]; simpl; [reflexivity|].
  f_equal. apply IH. destruct H; [contradiction|assumption].
Qed.

(** Assigning to a new key appends it. *)
Lemma setitem_absent d k v :
  Dict.contains d k = false -> Dict.setitem d k v = d ++ [(k, v)].
Proof.
  induction d as [|[k0 v0] d IH]; simpl; [reflexivity|].
  destruct (String.eqb k0 k); [discriminate|]. intros H. f_equal. exact (IH H).
Qed.

Lemma get_app_l d d' k v :
  Dict.get d k = Some v -> Dict.get (d ++ d') k = Some v.
Proof.
  induction d as [|[k0 v0] d IH]; simpl; [discriminate|].
  destruct (String.eqb k0 k); [auto|exact IH].
Qed.

End DictFacts.

Unset Implicit Arguments.

(** ** The relaxation loop *)

Section RelaxFacts.
Import Node Relax.
Local Open Scope float_scope.

Implicit Types (network : registry) (s : locals) (d n : string).

Ltac run_pair :=
  unfold relax_pair, bind, eval, ret, assign, mark_edited, lookups, Dict.getitem in *;
  simpl in *.

(** What one pass of the inner loop does: it raises a [KeyError] and
    leaves the state, or it skips, or it writes an improving candidate. *)
Lemma relax_pair_cases network d cur n s :
  (exists k, relax_pair network d cur n s = (s, Raise (KeyError k))) \/
  (exists midway tv vd, lookups network s d n midway tv vd /\
     (falsy vd = true \/ (tv + vd <? cur) = false) /\
     relax_pair network d cur n s = (s, Ok tt)) \/
  (exists midway tv vd hop, lookups network s d n midway tv vd /\
     falsy vd = false /\ (tv + vd <? cur) = true /\
     relax_pair network d cur n s =
       (Locals (Dict.setitem (table s) d (HopInfo.Build hop (tv + vd))) true, Ok tt)).
Proof.
  run_pair.
  destruct (Dict.get network n) as [midway|]; [|left; eauto].
  destruct (HopsMap.distance_to (table s) n) as [tv|e] eqn:Etv.
  2:{ left. unfold HopsMap.distance_to, Dict.getitem in Etv.
      destruct (Dict.get (table s) n); inversion Etv; eauto. }
  destruct (distance_to midway d) as [vd|e] eqn:Evd.
  2:{ left. unfold distance_to, HopsMap.distance_to, Dict.getitem in Evd.
      destruct (Dict.get (map midway) d); inversion Evd; eauto. }
  destruct (falsy vd) eqn:Ez.
  { right; left. exists midway, tv, vd. destruct s; auto 10. }
  destruct (tv + vd <? cur) eqn:Elt.
  2:{ right; left. exists midway, tv, vd. destruct s; auto 10. }
  destruct (Dict.get network d) as [target|]; [|left; eauto].
  destruct (HopsMap.pass_through (map target) (name midway)) as [hop|e] eqn:Eh.
  2:{ left. unfold HopsMap.pass_through, Dict.getitem in Eh.
      destruct (Dict.get (map target) (name midway)); inversion Eh; eauto. }
  right; right. exists midway, tv, vd, hop. auto 10.
Qed.

(** A property of the state that every pass of a loop keeps holds when
    the loop ends, normally or not. *)
Lemma for_each_inv (A : Type) (P : locals -> Prop) (body : A -> M unit) xs :
  (forall x s, In x xs -> P s -> P (fst (body x s))) ->
  forall s, P s -> P (fst (for_each xs body s)).
Proof.
  induction xs as [|x xs IH]; intros Hbody s Hs; simpl; [exact Hs|].
  unfold bind. pose proof (Hbody x s (or_introl eq_refl) Hs) as Hx.
  destruct (body x s) as [s' [[]|e]]; simpl in *; [|exact Hx].
  apply IH; [|exact Hx]. intros y s0 Hy. apply Hbody. right; exact Hy.
Qed.


Lemma relax_pair_inv network m0 d cur n s :
  In d (Dict.keys m0) -> inner_inv m0 d cur s ->
  inner_inv m0 d cur (fst (relax_pair network d cur n s)).
Proof.
  intros Hd (Hk & Hf & He).
  destruct (relax_pair_cases network d cur n s)
    as [[k ->]|[(mw & tv & vd & _ & _ & ->)|(mw & tv & vd & hop & _ & _ & Hlt & ->)]];
    unfold inner_inv; cbn [fst table]; try (split; [|split]; assumption).
  split; [|split].
  - rewrite keys_setitem_present; [exact Hk|]. rewrite Hk. exact Hd.
  - intros d' Hne. rewrite get_setitem_ne by congruence. apply Hf, Hne.
  - right. eexists. rewrite get_setitem_eq. split; [reflexivity|exact Hlt].
Qed.

Lemma inner_loop_inv network m0 d cur ns s :
  In d (Dict.keys m0) -> inner_inv m0 d cur s ->
  inner_inv m0 d cur (fst (for_each ns (relax_pair network d cur) s)).
Proof.
  intros Hd. apply for_each_inv. intros n s0 _. apply relax_pair_inv, Hd.
Qed.

(** One pass of the outer loop, for a destination of the table. *)
Lemma relax_destination_inv network nt d s hb :
  Dict.get (table s) d = Some hb ->
  inner_inv (table s) d (HopInfo.best_distance hb)
    (fst (relax_destination network nt d s)).
Proof.
  intros Hget. unfold relax_destination, bind, eval at 1.
  unfold HopsMap.distance_to, Dict.getitem. rewrite Hget.
  apply inner_loop_inv.
  - apply get_In. eauto.
  - split; [reflexivity|]. split; [reflexivity|]. left; reflexivity.
Qed.

(** The outer loop over destinations that are all different: each entry
    is written in the pass of its own key only. *)
Lemma outer_loop_inv network nt ds :
  NoDup ds ->
  forall s, (forall d, In d ds -> In d (Dict.keys (table s))) ->
  let s' := fst (for_each ds (relax_destination network nt) s) in
  Dict.keys (table s') = Dict.keys (table s) /\
  (forall d, ~ In d ds -> Dict.get (table s') d = Dict.get (table s) d) /\
  (forall d hb, In d ds -> Dict.get (table s) d = Some hb ->
     exists ha, Dict.get (table s') d = Some ha /\
       (ha = hb \/ (HopInfo.best_distance ha <? HopInfo.best_distance hb) = true)).
Proof.
  induction 1 as [|d0 ds Hnotin Hnd IH]; intros s Hin; simpl.
  { repeat split; auto. intros d hb []. }
  destruct (proj2 (get_In (table s) d0) (Hin d0 (or_introl eq_refl))) as [hb0 Hget0].
  pose proof (relax_destination_inv network nt d0 s hb0 Hget0) as (Hk1 & Hf1 & He1).
  assert (Hd0 : forall s1, Dict.get (table s1) d0 = Dict.get (table (fst (relax_destination network nt d0 s))) d0 ->
            forall hb, Dict.get (table s) d0 = Some hb ->
            exists ha, Dict.get (table s1) d0 = Some ha /\
              (ha = hb \/ (HopInfo.best_distance ha <? HopInfo.best_distance hb) = true)).
  { intros s1 E hb Hb. rewrite E. rewrite Hget0 in Hb. injection Hb as <-.
    destruct He1 as [->|(h & -> & Hlt)]; eauto. }
  unfold bind.
  destruct (relax_destination network nt d0 s) as [s1 [[]|e]] eqn:E1; simpl in *.
  - destruct (IH s1) as (Hk & Hf & He).
    { intros d Hd. rewrite Hk1. auto. }
    split; [congruence|]. split.
    + intros d Hd. rewrite Hf by tauto. apply Hf1. intros ->. tauto.
    + intros d hb [<-|Hd] Hb.
      * apply Hd0; [|exact Hb]. apply Hf, Hnotin.
      * apply He; [exact Hd|]. rewrite Hf1; [exact Hb|]. intros ->. contradiction.
  - split; [exact Hk1|]. split.
    + intros d Hd. apply Hf1. intros ->. tauto.
    + intros d hb [<-|Hd] Hb.
      * apply Hd0; [reflexivity|exact Hb].
      * exists hb. split; [|left; reflexivity]. rewrite Hf1; [exact Hb|].
        intros ->. contradiction.
Qed.

End RelaxFacts.

(** ** Comparisons of floats *)

Section FloatFacts.
Local Open Scope float_scope.

Lemma ltb_leb (x y : float) : (x <? y) = true -> (x <=? y) = true.
Proof.
  rewrite FloatAxioms.ltb_spec, FloatAxioms.leb_spec. unfold SFltb, SFleb.
  destruct (SFcompare (Prim2SF x) (Prim2SF y)) as [[]|]; congruence.
Qed.

Lemma eqb_leb (x y : float) : (x =? y) = true -> (x <=? y) = true.
Proof.
  rewrite FloatAxioms.eqb_spec, FloatAxioms.leb_spec. unfold SFeqb, SFleb.
  destruct (SFcompare (Prim2SF x) (Prim2SF y)) as [[]|]; congruence.
Qed.

Lemma leb_refl (x : float) : is_nan x = false -> (x <=? x) = true.
Proof.
  unfold is_nan. intros H. apply eqb_leb. destruct (x =? x); [reflexivity|discriminate].
Qed.

End FloatFacts.

(** * The claims *)

Section RelaxClaims.
Import Node Relax Actor Examples.
Local Open Scope float_scope.

(** C1, as the code runs it. Node A holds D at 10 and receives the table of
    B, whose keys are B, A, C, D. The pair through B writes D at 4; the
    pair through C is then compared with the 10 read before the inner loop,
    not with the 4 just stored, so 7 replaces 4: the invocation ends with
    D at 7 through C. With C at 2 of D both candidates are 4 and the second,
    of equal cost, replaces the next hop of the first. *)
Theorem update_table_keeps_last_improving_candidate :
  let after_B := Locals (Dict.setitem tableA "D" (HopInfo.Build "B" 4)) true in
  let after_C := Locals (Dict.setitem tableA "D" (HopInfo.Build "C" 7)) true in
  relax_pair net "D" 10 "B" (Locals tableA false) = (after_B, Ok tt) /\
  relax_pair net "D" 10 "C" after_B = (after_C, Ok tt) /\
  (7 <? 4) = false /\
  relax net nodeA (packet_from nodeB) = (after_C, Ok tt) /\
  Dict.get (table (fst (relax net' nodeA (packet_from nodeB)))) "D"
    = Some (HopInfo.Build "C" 4).
Proof.
  repeat split; vm_compute; reflexivity.
Qed.

Lemma for_each_id (A : Type) (body : A -> M unit) xs s :
  (forall x, In x xs -> body x s = (s, Ok tt)) -> for_each xs body s = (s, Ok tt).
Proof.
  induction xs as [|x xs IH]; intros H; simpl; [reflexivity|].
  unfold bind. rewrite (H x (or_introl eq_refl)). apply IH.
  intros y Hy. apply H. right; exact Hy.
Qed.

Lemma setitem_same (V : Type) (d : Dict.t V) k v :
  Dict.get d k = Some v -> Dict.setitem d k v = d.
Proof.
  induction d as [|[k0 v0] d IH]; simpl; [discriminate|].
  destruct (String.eqb k0 k); intros H; [congruence|]. f_equal. exact (IH H).
Qed.

(** C3. At a fixed point relaxation is the identity: when no candidate
    [toVia + viaToDest] is below the current entry of its destination,
    the loop leaves the table as it is with [edited = False], and
    [update_table] returns without sending anything, the node unchanged
    and published under its name; the registry itself is unchanged when it
    already held the node. *)
Theorem relax_fixed_point (network : registry) (self : t) (packet : Packet.t) :
  settled network (map self) (Packet.content packet) ->
  relax network self packet = (Locals (map self) false, Ok tt) /\
  (forall fuel queues clock,
     update_table (S fuel) self packet (World network queues clock) =
     Run self (World (Dict.setitem network (name self) self) queues clock) Done) /\
  (Dict.get network (name self) = Some self ->
     Dict.setitem network (name self) self = network).
Proof.
  intros Hs.
  assert (Hrelax : relax network self packet = (Locals (map self) false, Ok tt)).
  { unfold relax, relax_loop. cbn [table]. apply for_each_id. intros d Hd.
    unfold relax_destination, bind, eval at 1. cbn [table].
    destruct (Packet.content packet) as [|first others] eqn:Ent.
    - destruct (HopsMap.distance_to (map self) d) eqn:E; [reflexivity|].
      apply get_In in Hd. destruct Hd as [hb Hb].
      unfold HopsMap.distance_to, Dict.getitem in E. rewrite Hb in E. discriminate.
    - destruct (Hs d (fst first) Hd (or_introl eq_refl)) as (hb & _ & _ & _ & Hb & _).
      unfold HopsMap.distance_to at 1, Dict.getitem. rewrite Hb.
      apply for_each_id. intros n Hn.
      destruct (Hs d n Hd Hn) as (hb' & midway & tv & vd & Hb' & Hm & Htv & Hvd & Hlt).
      rewrite Hb in Hb'. injection Hb' as <-.
      unfold relax_pair, bind, eval, ret, Dict.getitem. cbn [table].
      rewrite Hm, Htv, Hvd, Hlt. destruct (falsy vd); reflexivity. }
  split; [exact Hrelax|]. split.
  - intros fuel queues clock. cbn [update_table Actor.network]. rewrite Hrelax.
    cbn [table edited]. destruct self; reflexivity.
  - apply setitem_same.
Qed.

(** The tables once every distance is the shortest are settled. *)
Lemma relax_fixed_point_witness :
  relax final_net (Build "A" finalA (Some 0%nat)) (packet_from (Build "B" finalB (Some 1%nat)))
    = (Locals finalA false, Ok tt).
Proof.
  apply (relax_fixed_point final_net (Build "A" finalA (Some 0%nat))
           (packet_from (Build "B" finalB (Some 1%nat)))).
  intros d n Hd Hn. simpl in Hd, Hn.
  repeat (destruct Hd as [<-|Hd]; [|try contradiction]);
    repeat (destruct Hn as [<-|Hn]; [|try contradiction]);
    do 4 eexists; repeat split; reflexivity.
Defined.

(** C4. A pair [(n, d)] whose via node is at cost 0 of [d] changes
    nothing: the state after the pass is the state before it, whatever the
    candidate and the current distance, and the pass ends normally when the
    local table holds [n]. *)
Theorem zero_cost_pair_is_skipped (network : registry) (d n : string)
    (current_distance : float) (s : locals) (midway : t) (via_to_dest : float) :
  Dict.get network n = Some midway ->
  distance_to midway d = Ok via_to_dest ->
  (via_to_dest =? 0) = true ->
  fst (relax_pair network d current_distance n s) = s /\
  Dict.get (table (fst (relax_pair network d current_distance n s))) d = Dict.get (table s) d /\
  (In n (Dict.keys (table s)) -> relax_pair network d current_distance n s = (s, Ok tt)).
Proof.
  intros Hm Hvd Hz.
  assert (H : fst (relax_pair network d current_distance n s) = s /\
              (In n (Dict.keys (table s)) ->
               relax_pair network d current_distance n s = (s, Ok tt))).
  { unfold relax_pair, bind, eval, ret, Dict.getitem. rewrite Hm.
    destruct (HopsMap.distance_to (table s) n) as [tv|e] eqn:En.
    - rewrite Hvd. unfold falsy. rewrite Hz. auto.
    - split; [reflexivity|]. intros Hin. apply get_In in Hin.
      destruct Hin as [v Hv]. unfold HopsMap.distance_to, Dict.getitem in En.
      rewrite Hv in En. discriminate. }
  destruct H as [H1 H2]. rewrite H1. auto.
Qed.

(** D is at cost 0 of itself: the pair (D, D) leaves A's table alone. *)
Lemma zero_cost_pair_is_skipped_witness :
  relax_pair net "D" 10 "D" (Locals tableA false) = (Locals tableA false, Ok tt).
Proof.
  apply (zero_cost_pair_is_skipped net "D" "D" 10 (Locals tableA false) nodeD 0);
    try reflexivity.
  simpl. tauto.
Defined.

(** C10. One invocation never increases a stored distance. For a table with
    distinct keys and a destination [d] of it, the entry of [d] after the
    loop, whether the loop ended normally or raised, is the entry it was or
    holds a distance strictly below the one at entry; so the distance
    after is [<=] the distance before, for every distance that is a number. *)
Theorem relax_never_increases_a_distance (network : registry) (self : t)
    (packet : Packet.t) (d : string) (before : HopInfo.t) :
  Dict.wf (map self) ->
  Dict.get (map self) d = Some before ->
  exists after,
    Dict.get (table (fst (relax network self packet))) d = Some after /\
    (after = before \/
     (HopInfo.best_distance after <? HopInfo.best_distance before) = true) /\
    (is_nan (HopInfo.best_distance before) = false ->
     (HopInfo.best_distance after <=? HopInfo.best_distance before) = true).
Proof.
  intros Hwf Hget.
  destruct (outer_loop_inv network (Packet.content packet) (Dict.keys (map self)) Hwf
              (Locals (map self) false) (fun d H => H)) as (_ & _ & He).
  destruct (He d before) as (after & Hafter & Hcmp).
  - apply get_In. eauto.
  - exact Hget.
  - exists after. split; [exact Hafter|]. split; [exact Hcmp|].
    intros Hnan. destruct Hcmp as [->|Hlt]; [apply leb_refl, Hnan|apply ltb_leb, Hlt].
Qed.

Lemma tableA_wf : Dict.wf tableA.
Proof.
  unfold Dict.wf. simpl. repeat constructor; simpl; intuition discriminate.
Qed.

(** A's entry for D, at 10 before B's table is received, is at 7 after. *)
Lemma relax_never_increases_a_distance_witness :
  exists after,
    Dict.get (table (fst (relax net nodeA (packet_from nodeB)))) "D" = Some after /\
    (after = HopInfo.Build "D" 10 \/ (HopInfo.best_distance after <? 10) = true) /\
    (is_nan 10 = false -> (HopInfo.best_distance after <=? 10) = true).
Proof.
  apply (relax_never_increases_a_distance net nodeA (packet_from nodeB) "D"
           (HopInfo.Build "D" 10) tableA_wf eq_refl).
Defined.

(** C5, as amended. The received table enters the loop through the
    sequence of its keys only: two packets whose tables have the same keys
    in the same order, whatever their costs and next hops, leave the same
    table, the same [edited] and the same outcome, and [update_table]
    runs alike on both. *)
Theorem relax_reads_only_the_keys_of_the_packet (network : registry) (self : t)
    (packet1 packet2 : Packet.t) :
  Dict.keys (Packet.content packet1) = Dict.keys (Packet.content packet2) ->
  relax network self packet1 = relax network self packet2 /\
  (forall fuel queues clock,
     update_table fuel self packet1 (World network queues clock) =
     update_table fuel self packet2 (World network queues clock)).
Proof.
  intros Hkeys.
  assert (Hrelax : relax network self packet1 = relax network self packet2).
  { unfold relax, relax_loop. f_equal.
    unfold relax_destination. rewrite Hkeys. reflexivity. }
  split; [exact Hrelax|].
  intros [|fuel] queues clock; [reflexivity|].
  cbn [update_table Actor.network]. rewrite Hrelax. reflexivity.
Qed.

(** B's table and the forged one: same keys, same order, other costs. *)
Lemma relax_reads_only_the_keys_of_the_packet_witness :
  relax net nodeA (packet_from nodeB) = relax net nodeA forged_packet.
Proof.
  apply (relax_reads_only_the_keys_of_the_packet net nodeA (packet_from nodeB)
           forged_packet eq_refl).
Defined.

(** C5 as stated fails: the tables of B and of C have the same set of keys,
    in different orders, and A ends with D at 7 through C on the first and
    with D at 4 through B on the second. *)
Lemma same_key_set_different_tables :
  (forall k, In k (Dict.keys (Packet.content (packet_from nodeB))) <->
             In k (Dict.keys (Packet.content (packet_from nodeC)))) /\
  Dict.get (table (fst (relax net nodeA (packet_from nodeB)))) "D"
    = Some (HopInfo.Build "C" 7) /\
  Dict.get (table (fst (relax net nodeA (packet_from nodeC)))) "D"
    = Some (HopInfo.Build "B" 4) /\
  relax net nodeA (packet_from nodeB) <> relax net nodeA (packet_from nodeC).
Proof.
  split; [|split; [|split]].
  - intros k. simpl. tauto.
  - vm_compute. reflexivity.
  - vm_compute. reflexivity.
  - intros H. apply (f_equal (fun r => Dict.get (table (fst r)) "D")) in H.
    vm_compute in H. discriminate H.
Qed.













End RelaxClaims.

(** ** Normalisation *)

Section NormalisedClaims.
Import Node Actor Examples.
Local Open Scope float_scope.

(** The loop appends placeholders of listed nodes and touches nothing else. *)
Lemma extend_appends nodes : forall m,
  exists added,
    extend m nodes = m ++ added /\
    Forall (fun entry => exists node, In node nodes /\ entry = placeholder node) added.
Proof.
  induction nodes as [|node rest IH]; intros m; simpl.
  - exists []. rewrite app_nil_r. auto.
  - destruct (Dict.contains m (name node)) eqn:E.
    + destruct (IH m) as (added & -> & Hall). exists added. split; [reflexivity|].
      eapply Forall_impl; [|exact Hall]. intros entry (x & Hx & ->). eauto.
    + destruct (IH (Dict.setitem m (name node) (HopInfo.Build (name node) infinity)))
        as (added & -> & Hall).
      rewrite (setitem_absent _ _ _ E), <- app_assoc. simpl.
      exists (placeholder node :: added). split; [reflexivity|].
      constructor; [eauto|].
      eapply Forall_impl; [|exact Hall]. intros entry (x & Hx & ->). eauto.
Qed.

Lemma extend_keeps nodes m k v :
  Dict.get m k = Some v -> Dict.get (extend m nodes) k = Some v.
Proof.
  intros H. destruct (extend_appends nodes m) as (added & -> & _).
  apply get_app_l, H.
Qed.

Lemma extend_inserts nodes : forall m node,
  In node nodes -> Dict.get m (name node) = None ->
  Dict.get (extend m nodes) (name node) = Some (HopInfo.Build (name node) infinity).
Proof.
  induction nodes as [|node0 rest IH]; intros m node Hin Hnone; [destruct Hin|].
  simpl. destruct (Dict.contains m (name node0)) eqn:E.
  - destruct Hin as [->|Hin]; [|apply IH; assumption].
    rewrite contains_get, Hnone in E. discriminate.
  - destruct (String.eqb_spec (name node0) (name node)) as [Heq|Hne].
    + apply extend_keeps. rewrite Heq. apply get_setitem_eq.
    + destruct Hin as [->|Hin]; [contradiction|].
      apply IH; [exact Hin|]. rewrite get_setitem_ne; assumption.
Qed.

Lemma extend_covers nodes m node :
  In node nodes -> In (name node) (Dict.keys (extend m nodes)).
Proof.
  intros Hin. apply get_In. destruct (Dict.get m (name node)) as [v|] eqn:E.
  - exists v. apply extend_keeps, E.
  - eexists. apply extend_inserts; eassumption.
Qed.

Lemma extend_wf nodes : forall m, Dict.wf m -> Dict.wf (extend m nodes).
Proof.
  unfold Dict.wf. induction nodes as [|node rest IH]; intros m Hm; simpl; [exact Hm|].
  destruct (Dict.contains m (name node)) eqn:E; [apply IH, Hm|].
  apply IH. rewrite (setitem_absent _ _ _ E). unfold Dict.keys. rewrite List.map_app.
  simpl. apply NoDup_app; [exact Hm|repeat constructor; simpl; tauto|].
  intros k Hk [<-|[]]. apply contains_In in Hk. congruence.
Qed.

Lemma in_neighbours self network node :
  In node (neighbours self network) <->
  In node (Dict.values network) /\ name node <> name self.
Proof.
  unfold neighbours. rewrite filter_In.
  destruct (String.eqb_spec (name self) (name node)); simpl; intuition congruence.
Qed.

(** C6, as amended. [normalised] walks the other nodes of the registry,
    those whose name is not the node's own. It appends, for each of them
    that the table lacks, the entry (name, infinity) with the node itself
    as next hop; the entries the table had stay where and as they were;
    the table then holds every other node of the registry, hence every
    node of it when it held the node's own entry; and its keys stay
    distinct. The name and the queue of the node are kept. *)
Theorem normalised_fills_the_other_nodes (self : t) (network : registry) :
  let after := normalised self network in
  (exists added,
     map after = map self ++ added /\
     Forall (fun entry => exists node,
               In node (Dict.values network) /\ name node <> name self /\
               entry = placeholder node) added) /\
  (forall k v, Dict.get (map self) k = Some v -> Dict.get (map after) k = Some v) /\
  (forall node, In node (Dict.values network) -> name node <> name self ->
     Dict.get (map self) (name node) = None ->
     Dict.get (map after) (name node) = Some (HopInfo.Build (name node) infinity)) /\
  (forall node, In node (Dict.values network) -> name node <> name self ->
     In (name node) (Dict.keys (map after))) /\
  (In (name self) (Dict.keys (map self)) ->
     forall node, In node (Dict.values network) -> In (name node) (Dict.keys (map after))) /\
  (Dict.wf (map self) -> Dict.wf (map after)) /\
  name after = name self /\ queue after = queue self.
Proof.
  cbn [normalised map name queue].
  split; [|split; [|split; [|split; [|split; [|split]]]]].
  - destruct (extend_appends (neighbours self network) (map self)) as (added & E & Hall).
    exists added. split; [exact E|]. eapply Forall_impl; [|exact Hall].
    intros entry (node & Hn & ->). apply in_neighbours in Hn. exists node. tauto.
  - intros k v. apply extend_keeps.
  - intros node Hin Hne. apply extend_inserts, in_neighbours. tauto.
  - intros node Hin Hne. apply extend_covers, in_neighbours. tauto.
  - intros Hself node Hin.
    destruct (String.eqb_spec (name node) (name self)) as [->|Hne].
    + apply get_In in Hself. destruct Hself as [v Hv].
      apply get_In. exists v. apply extend_keeps, Hv.
    + apply extend_covers, in_neighbours. tauto.
  - apply extend_wf.
  - auto.
Qed.

(** The case of the specification: in the network A, B, C, D a table of A
    that covers A, B and C gets D at infinity, after its three entries. *)
Example normalised_adds_D :
  map (normalised (Build "A" [hop "A" 0; hop "B" 1; hop "C" 2] None) net)
  = [hop "A" 0; hop "B" 1; hop "C" 2; hop "D" infinity].
Proof. reflexivity. Qed.

(** C6 as stated fails: A is a node of the network and is not a destination
    of A's table, and [normalised] inserts no entry for it. *)
Lemma normalised_skips_the_node_itself :
  exists a b,
    Parse.from_links bare_links = Ok [a; b] /\
    let network : registry := [("A", a); ("B", b)] in
    In a (Dict.values network) /\
    Dict.get (map a) (name a) = None /\
    Dict.get (map (normalised a network)) (name a) = None /\
    map (normalised a network) = [hop "B" 1].
Proof.
  do 2 eexists. split; [reflexivity|]. simpl. auto.
Qed.

End NormalisedClaims.

(** ** The parser *)

Section ParseClaims.
Import Node Examples.
Local Open Scope float_scope.

Lemma hop_from_app_l k done rest hop :
  Parse._hop_from k done = Ok hop -> Parse._hop_from k (done ++ rest) = Ok hop.
Proof.
  induction done as [|h done IH]; simpl; [discriminate|].
  destruct (String.eqb (HopInfo.next_hop h) k); [auto|exact IH].
Qed.

Lemma hop_from_app_r k done rest :
  Parse._hop_from k done = Raise ValueError ->
  Parse._hop_from k (done ++ rest) = Parse._hop_from k rest.
Proof.
  induction done as [|h done IH]; simpl; [reflexivity|].
  destruct (String.eqb (HopInfo.next_hop h) k); [discriminate|exact IH].
Qed.

(** The comprehension, started on the hops [done] with the entries [acc]
    that they gave. *)
Lemma comprehension_spec todo : forall done acc,
  (forall k, Parse._hop_from k done =
             match Dict.get acc k with Some v => Ok v | None => Raise ValueError end) ->
  Parse.comprehension todo (done ++ todo) acc
  = Ok (acc ++ first_hops (Dict.keys acc) todo).
Proof.
  induction todo as [|h rest IH]; intros done acc Hinv; simpl.
  - rewrite app_nil_r. reflexivity.
  - pose proof (Hinv (HopInfo.next_hop h)) as Hh.
    assert (Hall : done ++ h :: rest = (done ++ [h]) ++ rest)
      by (rewrite <- app_assoc; reflexivity).
    destruct (Dict.get acc (HopInfo.next_hop h)) as [v|] eqn:E.
    + rewrite (hop_from_app_l _ _ (h :: rest) _ Hh), (setitem_same _ _ _ _ E), Hall.
      destruct (in_dec string_dec (HopInfo.next_hop h) (Dict.keys acc)) as [_|Hnot].
      2:{ exfalso. apply Hnot, get_In. eauto. }
      apply IH. intros k. specialize (Hinv k).
      destruct (Dict.get acc k) as [v'|] eqn:Ek.
      * apply hop_from_app_l, Hinv.
      * rewrite (hop_from_app_r _ _ _ Hinv). simpl.
        destruct (String.eqb_spec (HopInfo.next_hop h) k) as [<-|]; [congruence|reflexivity].
    + assert (Hf : Parse._hop_from (HopInfo.next_hop h) (done ++ h :: rest) = Ok h).
      { rewrite (hop_from_app_r _ _ _ Hh). simpl. rewrite String.eqb_refl. reflexivity. }
      assert (Hc : Dict.contains acc (HopInfo.next_hop h) = false)
        by (rewrite contains_get, E; reflexivity).
      rewrite Hf, (setitem_absent _ _ _ Hc), Hall.
      destruct (in_dec string_dec (HopInfo.next_hop h) (Dict.keys acc)) as [Hin|_].
      { apply get_In in Hin. destruct Hin as [v Hv]. congruence. }
      fold (entry h). rewrite (IH (done ++ [h]) (acc ++ [entry h])).
      * unfold Dict.keys. rewrite List.map_app, <- app_assoc. reflexivity.
      * intros k. specialize (Hinv k).
        destruct (Dict.get acc k) as [v'|] eqn:Ek.
        -- rewrite (get_app_l _ _ _ Ek). apply hop_from_app_l, Hinv.
        -- rewrite (hop_from_app_r _ _ _ Hinv). simpl.
           assert (Hget : Dict.get (acc ++ [entry h]) k = Dict.get [entry h] k).
           { clear - Ek. induction acc as [|[k0 v0] acc IHa]; simpl in *; [reflexivity|].
             destruct (String.eqb k0 k); [discriminate|auto]. }
           rewrite Hget. simpl. destruct (String.eqb (HopInfo.next_hop h) k); reflexivity.
Qed.

(** The table [from_links] builds from the hops of a node. *)
Lemma table_of_spec hops : Parse.table_of hops = Ok (first_hops [] hops).
Proof.
  unfold Parse.table_of. apply (comprehension_spec hops [] []). reflexivity.
Qed.


Lemma parse_all_spec py_float links : forall hops,
  Parse.parse_all py_float links = Ok hops ->
  Forall2 (fun link hop => Parse.parse_str py_float link = Ok hop) links hops.
Proof.
  induction links as [|link rest IH]; simpl; intros hops H.
  - injection H as <-. constructor.
  - destruct (Parse.parse_str py_float link) as [hop|] eqn:E; [|discriminate].
    destruct (Parse.parse_all py_float rest) as [hops'|]; [|discriminate].
    injection H as <-. constructor; auto.
Qed.




(** C9, as amended. [parse_str] raises exactly when the text between the
    first and the last character, stripped, does not split at its commas
    into exactly two fields, or [float] rejects the second; what it raises
    is Python's [ValueError]; and a cost that [float] accepts is stored as
    it is, whatever its sign. *)
Theorem parse_str_raises_exactly (py_float : string -> option float) (source : string) :
  let fields := Str.split "," (Str.strip (Str.slice_1_m1 source)) in
  (Parse.parse_str py_float source = Raise ValueError <->
     List.length fields <> 2%nat \/
     exists hop distance, fields = [hop; distance] /\ py_float distance = None) /\
  (forall e, Parse.parse_str py_float source = Raise e -> e = ValueError) /\
  (forall hop distance cost,
     fields = [hop; distance] -> py_float distance = Some cost ->
     Parse.parse_str py_float source = Ok (HopInfo.Build hop cost)).
Proof.
  unfold Parse.parse_str.
  destruct (Str.split "," (Str.strip (Str.slice_1_m1 source)))
    as [|hop [|distance [|extra more]]]; cbn zeta.
  - split; [split; [left; simpl; lia|reflexivity]|]. split; [congruence|discriminate].
  - split; [split; [left; simpl; lia|reflexivity]|]. split; [congruence|discriminate].
  - destruct (py_float distance) as [cost|] eqn:E.
    + split; [split; [discriminate|]|].
      * intros [H|(h & x & Hf & Hx)]; [simpl in H; lia|].
        injection Hf as <- <-. congruence.
      * split; [discriminate|]. intros h x c Hf Hc. injection Hf as <- <-.
        rewrite E in Hc. injection Hc as <-. reflexivity.
    + split; [split; [eauto|reflexivity]|]. split; [congruence|].
      intros h x c Hf Hc. injection Hf as <- <-. congruence.
  - split; [split; [left; simpl; lia|reflexivity]|]. split; [congruence|discriminate].
Qed.

(** C9 as stated fails: nothing checks the cost. A negative cost and a
    cost that is not a number are parsed and stored. *)
Lemma negative_cost_is_accepted :
  Parse.parse_str PyFloat.float_of_str "(B,-1.0)" = Ok (HopInfo.Build "B" (-1)) /\
  (-1 <? 0) = true /\
  Parse.parse_str PyFloat.float_of_str "(B,nan)" = Ok (HopInfo.Build "B" nan).
Proof.
  repeat split; reflexivity.
Qed.

End ParseClaims.

(** ** Errors of the lookups *)

Section ErrorClaims.
Import Node Relax Actor Examples.
Local Open Scope float_scope.






End ErrorClaims.

(** ** The packets a node sends *)

Section PacketClaims.
Import Objects Examples.

(** A queue that keeps the object it is given: the store is as it was and
    every inbox has received the packet itself, some number of times. *)
Lemma send_all_in_process destinations p : forall w,
  let w' := fst (send_all InProcess destinations p w) in
  heap w' = heap w /\
  forall q, exists sent, queues w' q = queues w q ++ sent /\ Forall (eq p) sent.
Proof.
  induction destinations as [|dest rest IH]; intros w; cbv zeta.
  - split; [reflexivity|]. intros q. exists []. rewrite app_nil_r. auto.
  - cbn [send_all]. unfold and_send. destruct (queue dest) as [q0|].
    + destruct (IH (queue_put InProcess q0 p w)) as (Hheap & Hq).
      split; [exact Hheap|]. intros q. destruct (Hq q) as (sent & Hs & Hall).
      rewrite Hs. cbn [queue_put queues]. unfold put. destruct (Nat.eqb q q0).
      * exists (p :: sent). rewrite <- app_assoc. auto.
      * exists sent. auto.
    + split; [reflexivity|]. intros q. exists []. rewrite app_nil_r. auto.
Qed.

(** A queue that pickles: the objects that existed are as they were, and
    every packet received holds a new object, equal to the table that the
    packet put held at that time. *)
Lemma send_all_managed destinations p : forall w,
  content p < next (heap w) ->
  let w' := fst (send_all Managed destinations p w) in
  next (heap w) <= next (heap w') /\
  (forall a, a < next (heap w) -> deref (heap w') a = deref (heap w) a) /\
  forall q, exists sent,
    queues w' q = queues w q ++ sent /\
    Forall (fun p' => next (heap w) <= content p' /\
                      deref (heap w') (content p') = deref (heap w) (content p) /\
                      header p' = header p) sent.
Proof.
  induction destinations as [|dest rest IH]; intros w Hp; cbv zeta.
  - split; [cbn; lia|]. split; [reflexivity|]. intros q. exists [].
    rewrite app_nil_r. auto.
  - cbn [send_all]. unfold and_send. destruct (queue dest) as [q0|].
    2:{ split; [cbn; lia|]. split; [reflexivity|]. intros q. exists [].
        rewrite app_nil_r. auto. }
    set (w1 := queue_put Managed q0 p w).
    assert (Hnext : next (heap w1) = S (next (heap w))) by reflexivity.
    assert (Hold : forall a, a < next (heap w) -> deref (heap w1) a = deref (heap w) a).
    { intros a Ha. unfold w1, deref. cbn.
      destruct (Nat.eqb_spec a (next (heap w))); [lia|reflexivity]. }
    assert (Hnew : deref (heap w1) (next (heap w)) = deref (heap w) (content p)).
    { unfold w1, deref. cbn. rewrite Nat.eqb_refl. reflexivity. }
    assert (Hq1 : forall q, queues w1 q =
              if Nat.eqb q q0
              then queues w q ++ [MkPacket (header p) (next (heap w)) (params p)]
              else queues w q) by reflexivity.
    destruct (IH w1) as (Hle & Hframe & Hq); [rewrite Hnext; lia|].
    split; [lia|]. split.
    { intros a Ha. rewrite Hframe by lia. apply Hold, Ha. }
    intros q. destruct (Hq q) as (sent & Hs & Hall).
    assert (Hall' : Forall (fun p' => next (heap w) <= content p' /\
                      deref (heap (fst (send_all Managed rest p w1))) (content p')
                        = deref (heap w) (content p) /\
                      header p' = header p) sent).
    { eapply Forall_impl; [|exact Hall]. intros p' (H1 & H2 & H3).
      split; [lia|]. split; [|exact H3]. rewrite H2. apply Hold, Hp. }
    rewrite Hs, Hq1. destruct (Nat.eqb q q0).
    + eexists (_ :: sent). rewrite <- app_assoc. split; [reflexivity|].
      constructor; [|exact Hall']. cbn [content header]. split; [lia|].
      split; [|reflexivity]. rewrite Hframe by lia. exact Hnew.
    + exists sent. auto.
Qed.

(** The object-level packet read off the store is the packet of the
    value-level [dummy_packet]. *)
Lemma dummy_packet_value (h : store) (self : node) (now : Z) :
  packet_value h (dummy_packet self now) = Actor.dummy_packet (node_value h self) now.
Proof. reflexivity. Qed.

(** C2, as amended. [dummy_packet] builds the packet around the table
    object of the sender, without a copy. What an inbox then holds depends
    on the queue. A queue that keeps the object it is given (a
    [queue.Queue], the type [node.py] declares) holds that very packet: a
    later mutation of the sender's table shows through it. A queue that
    pickles on [put] (the manager queue [main.py] creates) holds a copy
    with a table of its own, equal to the sender's table when it was sent,
    and no later mutation of the sender's table changes it. *)
Theorem packet_holds_the_table_of_its_sender (kind : queue_kind) (self : node)
    (now : Z) (neighbours : list node) (w : world) (q : nat) (mutated : HopsMap.t) :
  map self < next (heap w) ->
  let w' := fst (broadcast kind self now neighbours w) in
  let later := write (heap w') (map self) mutated in
  content (dummy_packet self now) = map self /\
  exists sent,
    queues w' q = queues w q ++ sent /\
    match kind with
    | InProcess =>
        Forall (fun p => p = dummy_packet self now /\
                         deref later (content p) = mutated) sent
    | Managed =>
        Forall (fun p => content p <> map self /\
                         deref (heap w') (content p) = deref (heap w) (map self) /\
                         deref later (content p) = deref (heap w) (map self)) sent
    end.
Proof.
  intros Halloc w' later. split; [reflexivity|].
  unfold later, w', broadcast. destruct kind.
  - destruct (send_all_in_process neighbours (dummy_packet self now) w) as (_ & Hq).
    destruct (Hq q) as (sent & -> & Hall). exists sent. split; [reflexivity|].
    eapply Forall_impl; [|exact Hall]. intros p <-. split; [reflexivity|].
    unfold deref, write. simpl. rewrite Nat.eqb_refl. reflexivity.
  - destruct (send_all_managed neighbours (dummy_packet self now) w Halloc) as (_ & _ & Hq).
    destruct (Hq q) as (sent & -> & Hall). exists sent. split; [reflexivity|].
    eapply Forall_impl; [|exact Hall]. simpl. intros p (Hfresh & Hcopy & _).
    split; [lia|]. split; [exact Hcopy|].
    unfold deref, write in *. simpl.
    destruct (Nat.eqb_spec (content p) (map self)); [lia|exact Hcopy].
Qed.

(** Through the manager queue: B's inbox holds a copy of A's table as it was
    sent, with D at 10, and still does once A has D at 7. *)
Lemma packet_holds_the_table_of_its_sender_witness :
  exists p,
    queues (A_relaxes Managed) 1 = [p] /\
    content p <> map objA /\
    deref (heap (A_relaxes Managed)) (map objA)
      = Dict.setitem tableA "D" (HopInfo.Build "C" 7%float) /\
    deref (heap (A_relaxes Managed)) (content p) = tableA.
Proof.
  destruct (packet_holds_the_table_of_its_sender Managed objA 0 [objB; objC; objD] quiet 1
              (Dict.setitem tableA "D" (HopInfo.Build "C" 7%float)))
    as (_ & sent & Hq & Hall); [simpl; lia|].
  change (fst (broadcast Managed objA 0 [objB; objC; objD] quiet)) with (A_sends Managed) in *.
  destruct sent as [|p [|p' sent]]; try discriminate Hq.
  exists p. inversion Hall as [|? ? (Hne & _ & _) _]; subst.
  split; [exact Hq|]. split; [exact Hne|]. split; [reflexivity|].
  clear Hall Hne. vm_compute in Hq. injection Hq as <-. reflexivity.
Defined.

(** C2 as stated fails. Through a queue that keeps its objects, the packet
    in B's inbox is the same before and after A relaxes; its table showed D
    at 10 when it was sent and shows D at 7 through C afterwards. *)
Lemma sent_packet_follows_the_sender :
  exists p,
    queues (A_sends InProcess) 1 = [p] /\
    queues (A_relaxes InProcess) 1 = [p] /\
    content p = map objA /\
    Dict.get (Packet.content (packet_value (heap (A_sends InProcess)) p)) "D"
      = Some (HopInfo.Build "D" 10%float) /\
    Dict.get (Packet.content (packet_value (heap (A_relaxes InProcess)) p)) "D"
      = Some (HopInfo.Build "C" 7%float).
Proof.
  eexists. repeat split; reflexivity.
Qed.

(** With the nodes themselves in the registry, the pair through the node
    itself reads the table that is being written. On a packet with the keys
    B and A, D is written at 4 through B; the pair through A then finds D at
    4 in A's own table, 0 + 4 is below the 10 read before the inner loop,
    and D is written again, through A. From published copies the pair
    through A reads 10 and writes nothing. *)
Lemma live_registry_reads_the_table_being_written :
  Dict.get (deref (heap (fst (relax_in_place (registry_of InProcess) objA two_keys quiet)))
              (map objA)) "D" = Some (HopInfo.Build "A" 4%float) /\
  Dict.get (deref (heap (fst (relax_in_place (registry_of Managed) objA two_keys quiet)))
              (map objA)) "D" = Some (HopInfo.Build "B" 4%float).
Proof.
  split; reflexivity.
Qed.

End PacketClaims.

(** * Further properties of the code *)

(** ** [hops_map.py]: assignment and lookup *)

Section HopsMapExtras.

(** After [m[k] = hop], [distance_to(k)] and [pass_through(k)] return the
    fields of [hop]; the lookups of every other key are what they were,
    raised [KeyError] included; and the keys are those of [m], in their
    order, with [k] appended when it is new. *)
Theorem hops_map_assign_then_lookup (m : HopsMap.t) (k : string) (hop : HopInfo.t) :
  let m' := Dict.setitem m k hop in
  HopsMap.distance_to m' k = Ok (HopInfo.best_distance hop) /\
  HopsMap.pass_through m' k = Ok (HopInfo.next_hop hop) /\
  (forall k', k' <> k ->
     HopsMap.distance_to m' k' = HopsMap.distance_to m k' /\
     HopsMap.pass_through m' k' = HopsMap.pass_through m k') /\
  Dict.keys m' = (if Dict.contains m k then Dict.keys m else Dict.keys m ++ [k]) /\
  (Dict.wf m -> Dict.wf m').
Proof.
  cbv zeta. unfold HopsMap.distance_to, HopsMap.pass_through, Dict.getitem.
  rewrite get_setitem_eq. split; [reflexivity|]. split; [reflexivity|].
  assert (Hkeys : Dict.keys (Dict.setitem m k hop)
                  = if Dict.contains m k then Dict.keys m else Dict.keys m ++ [k]).
  { destruct (Dict.contains m k) eqn:E.
    - apply keys_setitem_present, contains_In, E.
    - rewrite (setitem_absent _ _ _ E). unfold Dict.keys. rewrite List.map_app. reflexivity. }
  split; [|split; [exact Hkeys|]].
  - intros k' Hne. rewrite get_setitem_ne by congruence. split; reflexivity.
  - unfold Dict.wf. rewrite Hkeys. destruct (Dict.contains m k) eqn:E; [tauto|].
    intros Hwf. apply NoDup_app; [exact Hwf|repeat constructor; simpl; tauto|].
    intros x Hx [<-|[]]. apply contains_In in Hx. congruence.
Qed.

End HopsMapExtras.

(** ** [node.py], [parse_links.py]: building the tables *)

Section BuildExtras.
Import Node.
Local Open Scope float_scope.

(** [_hop_from] returns the first hop of the list that bears the name, and
    raises [ValueError] exactly when no hop bears it. *)
Theorem hop_from_finds_the_first (k : string) (hops : list HopInfo.t) :
  match Parse._hop_from k hops with
  | Ok hop =>
      exists before after,
        hops = before ++ hop :: after /\ HopInfo.next_hop hop = k /\
        ~ In k (List.map HopInfo.next_hop before)
  | Raise e => e = ValueError /\ ~ In k (List.map HopInfo.next_hop hops)
  end.
Proof.
  induction hops as [|h rest IH]; simpl; [tauto|].
  destruct (String.eqb_spec (HopInfo.next_hop h) k) as [Heq|Hne].
  - exists [], rest. simpl. tauto.
  - destruct (Parse._hop_from k rest) as [hop|e].
    + destruct IH as (before & after & -> & Hk & Hnot).
      exists (h :: before), after. simpl. tauto.
    + simpl. tauto.
Qed.

Lemma keys_first_hops hops : forall seen,
  NoDup (Dict.keys (first_hops seen hops)) /\
  forall k, In k (Dict.keys (first_hops seen hops)) ->
            ~ In k seen /\ In k (List.map HopInfo.next_hop hops).
Proof.
  induction hops as [|h rest IH]; intros seen; simpl.
  - split; [constructor|]. intros k [].
  - destruct (in_dec string_dec (HopInfo.next_hop h) seen) as [Hin|Hnot].
    + destruct (IH seen) as (Hnd & Hk). split; [exact Hnd|].
      intros k Hkin. destruct (Hk k Hkin). tauto.
    + destruct (IH (seen ++ [HopInfo.next_hop h])) as (Hnd & Hk). simpl. split.
      * constructor; [|exact Hnd]. intros Hin. apply Hk in Hin.
        destruct Hin as [Hin _]. apply Hin, in_or_app. right; simpl; tauto.
      * intros k [<-|Hkin]; [tauto|]. destruct (Hk k Hkin) as [H1 H2].
        split; [|tauto]. intros Hs. apply H1, in_or_app. tauto.
Qed.

Lemma get_first_hops k hops : forall seen,
  ~ In k seen ->
  Dict.get (first_hops seen hops) k =
  match Parse._hop_from k hops with Ok hop => Some hop | Raise _ => None end.
Proof.
  induction hops as [|h rest IH]; intros seen Hk; simpl; [reflexivity|].
  destruct (in_dec string_dec (HopInfo.next_hop h) seen) as [Hin|Hnot].
  - destruct (String.eqb_spec (HopInfo.next_hop h) k) as [<-|Hne]; [contradiction|].
    apply IH, Hk.
  - simpl. destruct (String.eqb_spec (HopInfo.next_hop h) k) as [Heq|Hne]; [reflexivity|].
    apply IH. intros Hin. apply in_app_or in Hin. simpl in Hin. tauto.
Qed.

(** The table of a list of hops. *)
Lemma table_of_shape hops :
  exists m,
    Parse.table_of hops = Ok m /\ m = first_hops [] hops /\ Dict.wf m /\
    forall k, Dict.get m k =
              match Parse._hop_from k hops with Ok hop => Some hop | Raise _ => None end.
Proof.
  exists (first_hops [] hops). split; [apply table_of_spec|]. split; [reflexivity|]. split.
  - apply (keys_first_hops hops []).
  - intros k. apply get_first_hops. intros [].
Qed.

(** [from_links] never raises: the [ValueError] of [_hop_from] cannot be
    reached from it. It returns one node per item, in order, under the
    key of the item and without a queue; the table of a node has distinct
    keys and holds, under each name that occurs among the hops, the first
    hop of that name, and nothing else. *)
Theorem from_links_never_raises (links : list (string * list HopInfo.t)) :
  exists nodes,
    Parse.from_links links = Ok nodes /\
    Forall2 (fun item node =>
               name node = fst item /\ queue node = None /\
               Dict.wf (map node) /\
               forall k, Dict.get (map node) k =
                         match Parse._hop_from k (snd item) with
                         | Ok hop => Some hop
                         | Raise _ => None
                         end) links nodes.
Proof.
  induction links as [|[key hops] rest IH]; simpl.
  - exists []. split; [reflexivity|constructor].
  - destruct (table_of_shape hops) as (m & -> & _ & Hwf & Hget).
    destruct IH as (nodes & -> & Hall).
    eexists. split; [reflexivity|]. constructor; [|exact Hall].
    simpl. auto.
Qed.

End BuildExtras.

(** ** [hop_info.py], [parse_links.py]: the parser on whole files *)

Section ParseExtras.
Import Node.
Local Open Scope float_scope.
Local Open Scope string_scope.

Lemma split_not_nil sep s : Str.split sep s <> [].
Proof.
  destruct s as [|c s]; simpl; [discriminate|].
  destruct (Ascii.eqb c sep); [discriminate|].
  destruct (Str.split sep s); discriminate.
Qed.

(** A string without the separator is one field. *)
Lemma split_without_sep sep s :
  ~ In sep (list_ascii_of_string s) -> Str.split sep s = [s].
Proof.
  induction s as [|c s IH]; simpl; [reflexivity|]. intros H.
  destruct (Ascii.eqb_spec c sep) as [->|Hne]; [tauto|].
  rewrite IH by tauto. reflexivity.
Qed.

(** The first separator ends the first field. *)
Lemma split_at_first_sep sep x y :
  ~ In sep (list_ascii_of_string x) ->
  Str.split sep (x ++ String sep y) = x :: Str.split sep y.
Proof.
  induction x as [|c x IH]; simpl; intros H.
  - rewrite Ascii.eqb_refl. reflexivity.
  - destruct (Ascii.eqb_spec c sep) as [->|Hne]; [tauto|].
    rewrite IH by tauto. reflexivity.
Qed.

Lemma string_app_assoc (a b c : string) : (a ++ b) ++ c = a ++ (b ++ c).
Proof.
  induction a as [|x a IH]; simpl; [reflexivity|]. rewrite IH. reflexivity.
Qed.

Lemma drop_last_app s b : Str.drop_last (s ++ String b EmptyString) = s.
Proof.
  induction s as [|c s IH]; simpl; [reflexivity|].
  rewrite IH. destruct s; reflexivity.
Qed.

(** [parse_str] drops the first and the last character of the token
    whatever they are, parentheses or not; and a token made of a name and a
    cost text, neither with a comma, around one comma and without outer
    white space, parses to the name and to what [float] makes of the
    cost text. *)
Theorem parse_str_reads_name_and_cost (py_float : string -> option float)
    (opening closing : ascii) (name distance : string) (cost : float) :
  ~ In ","%char (list_ascii_of_string name) ->
  ~ In ","%char (list_ascii_of_string distance) ->
  Str.strip (name ++ "," ++ distance) = name ++ "," ++ distance ->
  py_float distance = Some cost ->
  Parse.parse_str py_float (String opening (name ++ "," ++ distance ++ String closing ""))
  = Ok (HopInfo.Build name cost).
Proof.
  intros Hname Hdist Hstrip Hfloat. unfold Parse.parse_str.
  assert (Hslice : Str.slice_1_m1
                     (String opening (name ++ "," ++ distance ++ String closing ""))
                   = name ++ "," ++ distance).
  { cbn [Str.slice_1_m1].
    replace (name ++ "," ++ distance ++ String closing "")
      with ((name ++ "," ++ distance) ++ String closing "").
    - apply drop_last_app.
    - rewrite !string_app_assoc. reflexivity. }
  cbv zeta. rewrite Hslice, Hstrip.
  change (name ++ "," ++ distance) with (name ++ String "," distance).
  rewrite (split_at_first_sep _ _ _ Hname), (split_without_sep _ _ Hdist), Hfloat.
  reflexivity.
Qed.

(** A token in brackets and with an exponent parses like one in
    parentheses. *)
Lemma parse_str_reads_name_and_cost_witness :
  Parse.parse_str PyFloat.float_of_str "[node 7,2.5e1]" = Ok (HopInfo.Build "node 7" 25).
Proof.
  apply (parse_str_reads_name_and_cost PyFloat.float_of_str "[" "]" "node 7" "2.5e1" 25);
    try reflexivity; simpl; intuition discriminate.
Defined.

End ParseExtras.

Section ParseLinksExtras.
Import Node.
Local Open Scope float_scope.

Variable py_float : string -> option float.

(** A matrix as [parse_links] stores it under [key]: the self entry of the
    key, then at least one hop. *)
Definition self_led (item : string * list HopInfo.t) : Prop :=
  exists hops, snd item = HopInfo.Build (fst item) 0 :: hops /\ hops <> [].

Lemma setitem_wf (V : Type) (d : Dict.t V) k v : Dict.wf d -> Dict.wf (Dict.setitem d k v).
Proof.
  unfold Dict.wf. intros Hwf. destruct (Dict.contains d k) eqn:E.
  - rewrite keys_setitem_present; [exact Hwf|]. apply contains_In, E.
  - rewrite (setitem_absent _ _ _ E). unfold Dict.keys. rewrite List.map_app.
    apply NoDup_app; [exact Hwf|repeat constructor; simpl; tauto|].
    intros x Hx [<-|[]]. change (In k (Dict.keys d)) in Hx.
    apply contains_In in Hx. congruence.
Qed.

Lemma setitem_Forall (V : Type) (P : string * V -> Prop) (d : Dict.t V) k v :
  Forall P d -> P (k, v) -> Forall P (Dict.setitem d k v).
Proof.
  intros Hd Hkv. induction Hd as [|[k0 v0] d H0 Hd IH]; simpl.
  - constructor; [exact Hkv|constructor].
  - destruct (String.eqb_spec k0 k) as [->|Hne]; constructor; assumption.
Qed.

Lemma In_keys_setitem (V : Type) (d : Dict.t V) k v x :
  In x (Dict.keys (Dict.setitem d k v)) -> x = k \/ In x (Dict.keys d).
Proof.
  induction d as [|[k0 v0] d IH]; simpl.
  - intros [<-|[]]. tauto.
  - destruct (String.eqb_spec k0 k) as [->|Hne]; simpl; [tauto|].
    intros [<-|H]; [tauto|]. destruct (IH H); tauto.
Qed.

Lemma parse_all_length links : forall hops,
  Parse.parse_all py_float links = Ok hops -> List.length hops = List.length links.
Proof.
  intros hops H. apply parse_all_spec in H.
  induction H; simpl; congruence.
Qed.

(** What a line that is kept gives. *)
Lemma parse_line_kept line key matrix :
  Parse.parse_line py_float line = Ok (Some (key, matrix)) ->
  exists links hops,
    Str.split " " (Str.strip line) = key :: links /\ links <> [] /\
    Parse.parse_all py_float links = Ok hops /\
    matrix = HopInfo.Build key 0 :: hops.
Proof.
  unfold Parse.parse_line.
  destruct (Str.split " " (Str.strip line)) as [|name [|link links]]; try discriminate.
  destruct (Parse.parse_all py_float (link :: links)) as [hops|e] eqn:E; [|discriminate].
  intros [= <- <-]. exists (link :: links), hops. repeat split; [discriminate|exact E].
Qed.

Lemma parse_lines_invariant lines : forall acc matrices,
  Parse.parse_lines py_float lines acc = Ok matrices ->
  Dict.wf acc -> Forall self_led acc ->
  Dict.wf matrices /\ Forall self_led matrices /\
  forall key, In key (Dict.keys matrices) ->
    In key (Dict.keys acc) \/
    exists line links, In line lines /\ Str.split " " (Str.strip line) = key :: links.
Proof.
  induction lines as [|line rest IH]; simpl; intros acc matrices Hrun Hwf Hall.
  - injection Hrun as <-. auto.
  - destruct (Parse.parse_line py_float line) as [[[key matrix]|]|e] eqn:E; [| |discriminate].
    + destruct (parse_line_kept _ _ _ E) as (links & hops & Hsplit & Hne & Hparse & ->).
      destruct (IH _ _ Hrun) as (Hwf' & Hall' & Hkeys).
      * apply setitem_wf, Hwf.
      * apply setitem_Forall; [exact Hall|]. exists hops. simpl.
        split; [reflexivity|]. intros ->. apply parse_all_length in Hparse.
        destruct links; [contradiction|discriminate].
      * split; [exact Hwf'|]. split; [exact Hall'|]. intros k Hk.
        destruct (Hkeys k Hk) as [Hin|(l & ls & Hl & Hs)]; [|right; eauto].
        apply In_keys_setitem in Hin. destruct Hin as [->|Hin]; [right; eauto|tauto].
    + destruct (IH _ _ Hrun Hwf Hall) as (Hwf' & Hall' & Hkeys).
      split; [exact Hwf'|]. split; [exact Hall'|]. intros k Hk.
      destruct (Hkeys k Hk) as [Hin|(l & ls & Hl & Hs)]; [tauto|right; eauto].
Qed.

(** The nodes [from_links] builds from matrices that start with the self
    entry. *)
Lemma from_links_on_self_led (matrices : Dict.t (list HopInfo.t)) :
  Forall self_led matrices ->
  exists nodes,
    Parse.from_links (Dict.items matrices) = Ok nodes /\
    List.map name nodes = Dict.keys matrices /\
    Forall (fun node =>
              Dict.wf (map node) /\
              hd_error (map node) = Some (name node, HopInfo.Build (name node) 0) /\
              Dict.get (map node) (name node) = Some (HopInfo.Build (name node) 0)) nodes.
Proof.
  unfold Dict.items, Dict.keys.
  induction 1 as [|[key matrix] items (hops & Hm & _) Hall IH]; simpl in *.
  - exists []. repeat split. constructor.
  - subst matrix. destruct IH as (nodes & -> & Hnames & Hforall).
    destruct (table_of_shape (HopInfo.Build key 0 :: hops)) as (m & -> & Hmap & Hwf & Hget).
    eexists. split; [reflexivity|]. simpl. split; [f_equal; exact Hnames|].
    constructor; [|exact Hforall]. simpl. split; [exact Hwf|]. split.
    + rewrite Hmap. reflexivity.
    + rewrite Hget. simpl. rewrite String.eqb_refl. reflexivity.
Qed.

(** What [parse_links] returns when it returns: the keys are distinct, each
    is the first field of a line of the file, and each matrix starts with
    the self entry [(key, 0.0)] and goes on with at least one hop. The
    nodes [from_links] then builds have distinct names, and the table of
    each holds the node's own entry, at cost 0 and first. *)
Theorem parse_links_gives_self_led_tables (lines : list string)
    (matrices : Dict.t (list HopInfo.t)) :
  Parse.parse_links py_float lines = Ok matrices ->
  Dict.wf matrices /\
  Forall self_led matrices /\
  (forall key, In key (Dict.keys matrices) ->
     exists line links, In line lines /\ Str.split " " (Str.strip line) = key :: links) /\
  exists nodes,
    Parse.from_links (Dict.items matrices) = Ok nodes /\
    List.map name nodes = Dict.keys matrices /\
    Forall (fun node =>
              Dict.wf (map node) /\
              hd_error (map node) = Some (name node, HopInfo.Build (name node) 0) /\
              Dict.get (map node) (name node) = Some (HopInfo.Build (name node) 0)) nodes.
Proof.
  intros Hrun. unfold Parse.parse_links in Hrun.
  destruct (parse_lines_invariant _ _ _ Hrun) as (Hwf & Hall & Hkeys);
    [constructor|constructor|].
  split; [exact Hwf|]. split; [exact Hall|]. split.
  { intros key Hk. destruct (Hkeys key Hk) as [[]|H]. exact H. }
  apply from_links_on_self_led, Hall.
Qed.

End ParseLinksExtras.

(** A file of three lines, the last with a name only. *)
Definition small_file : list string := ["A (B,1.0) (C,2.5)"; "B (A,1.0)"; "C"].

Lemma parse_links_gives_self_led_tables_witness :
  exists matrices,
    Parse.parse_links PyFloat.float_of_str small_file = Ok matrices /\
    Dict.keys matrices = ["A"; "B"] /\
    Dict.wf matrices /\ Forall (self_led) matrices.
Proof.
  eexists. split; [reflexivity|]. split; [reflexivity|].
  destruct (parse_links_gives_self_led_tables PyFloat.float_of_str small_file _ eq_refl)
    as (Hwf & Hled & _).
  split; [exact Hwf|exact Hled].
Defined.

Section ParseErrorExtras.
Local Open Scope float_scope.

Variable py_float : string -> option float.

Lemma parse_all_raises links :
  (forall e, Parse.parse_all py_float links = Raise e -> e = ValueError) /\
  (Parse.parse_all py_float links = Raise ValueError <->
   exists link, In link links /\ Parse.parse_str py_float link = Raise ValueError).
Proof.
  induction links as [|link rest (IHe & IH)]; simpl.
  - split; [discriminate|]. split; [discriminate|]. intros (l & [] & _).
  - destruct (Parse.parse_str py_float link) as [hop|e] eqn:E.
    + destruct (Parse.parse_all py_float rest) as [hops|e'] eqn:Er.
      * split; [discriminate|]. split; [discriminate|].
        intros (l & [<-|Hl] & Hr); [congruence|].
        assert (Hbad : Ok hops = Raise ValueError) by (apply IH; eauto).
        discriminate Hbad.
      * pose proof (IHe e' eq_refl) as ->. split; [congruence|].
        split; [|reflexivity]. intros _. destruct (proj1 IH eq_refl) as (l & Hl & Hr). eauto.
    + assert (e = ValueError) as ->.
      { revert E. unfold Parse.parse_str.
        destruct (Str.split "," (Str.strip (Str.slice_1_m1 link)))
          as [|? [|distance [|? ?]]]; try congruence.
        destruct (py_float distance); congruence. }
      split; [congruence|]. split; [eauto|reflexivity].
Qed.

Lemma parse_line_raises line :
  (forall e, Parse.parse_line py_float line = Raise e -> e = ValueError) /\
  (Parse.parse_line py_float line = Raise ValueError <->
   exists name links link,
     Str.split " " (Str.strip line) = name :: links /\ In link links /\
     Parse.parse_str py_float link = Raise ValueError).
Proof.
  unfold Parse.parse_line.
  destruct (Str.split " " (Str.strip line)) as [|name [|l ls]].
  - split; [discriminate|]. split; [discriminate|]. intros (? & ? & ? & H & _). discriminate.
  - split; [discriminate|]. split; [discriminate|].
    intros (? & ? & ? & [= <- <-] & [] & _).
  - destruct (parse_all_raises (l :: ls)) as (He & Hiff).
    destruct (Parse.parse_all py_float (l :: ls)) as [hops|e].
    + split; [discriminate|]. split; [discriminate|].
      intros (? & ? & link & [= <- <-] & Hin & Hr).
      assert (Hbad : Ok hops = Raise ValueError) by (apply Hiff; eauto).
      discriminate Hbad.
    + pose proof (He e eq_refl) as ->. split; [congruence|]. split; [|reflexivity].
      intros _. destruct (proj1 Hiff eq_refl) as (link & Hin & Hr).
      exists name, (l :: ls), link. auto.
Qed.

(** On lines that were read, the loop raises exactly when some line that
    has a name and neighbour tokens has a token that [parse_str] rejects,
    and it raises [ValueError]. *)
Lemma parse_lines_raise (lines : list string) :
  (forall e, Parse.parse_links py_float lines = Raise e -> e = ValueError) /\
  (Parse.parse_links py_float lines = Raise ValueError <->
   exists line name links link,
     In line lines /\ Str.split " " (Str.strip line) = name :: links /\
     In link links /\ Parse.parse_str py_float link = Raise ValueError).
Proof.
  unfold Parse.parse_links. generalize (@Dict.empty (list HopInfo.t)).
  induction lines as [|line rest IH]; intros acc; simpl.
  - split; [discriminate|]. split; [discriminate|]. intros (? & ? & ? & ? & [] & _).
  - destruct (parse_line_raises line) as (He & Hiff).
    destruct (Parse.parse_line py_float line) as [[[key matrix]|]|e].
    + destruct (IH (Dict.setitem acc key matrix)) as (IHe & IHiff).
      split; [exact IHe|]. rewrite IHiff. split.
      * intros (l & n & ls & lk & Hl & H). exists l, n, ls, lk. tauto.
      * intros (l & n & ls & lk & [<-|Hl] & Hs & Hin & Hr).
        -- assert (Hbad : Ok (Some (key, matrix)) = Raise ValueError)
             by (apply Hiff; exists n, ls, lk; auto).
           discriminate Hbad.
        -- exists l, n, ls, lk. tauto.
    + destruct (IH acc) as (IHe & IHiff).
      split; [exact IHe|]. rewrite IHiff. split.
      * intros (l & n & ls & lk & Hl & H). exists l, n, ls, lk. tauto.
      * intros (l & n & ls & lk & [<-|Hl] & Hs & Hin & Hr).
        -- assert (Hbad : @Ok (option (string * list HopInfo.t)) None = Raise ValueError)
             by (apply Hiff; exists n, ls, lk; auto).
           discriminate Hbad.
        -- exists l, n, ls, lk. tauto.
    + pose proof (He e eq_refl) as ->. split; [congruence|]. split; [|reflexivity].
      intros _. destruct (proj1 Hiff eq_refl) as (n & ls & lk & H).
      exists line, n, ls, lk. tauto.
Qed.

(** A file that is read to its end. *)
Lemma read_links_lines lines : forall acc,
  File.read_links py_float (List.map Ok lines) acc = Parse.parse_lines py_float lines acc.
Proof.
  induction lines as [|line rest IH]; intros acc; simpl; [reflexivity|].
  destruct (Parse.parse_line py_float line) as [[[key matrix]|]|e]; auto.
Qed.

(** A file whose reading fails after the lines [before]. *)
Lemma read_links_failure before e rest : forall acc,
  File.read_links py_float (List.map Ok before ++ Raise e :: rest) acc
  = match Parse.parse_lines py_float before acc with
    | Ok _ => Raise e
    | Raise e' => Raise e'
    end.
Proof.
  induction before as [|line before IH]; intros acc; simpl; [reflexivity|].
  destruct (Parse.parse_line py_float line) as [[[key matrix]|]|e']; auto.
Qed.

Lemma read_links_raised lines : forall acc e,
  File.read_links py_float lines acc = Raise e -> In (Raise e) lines \/ e = ValueError.
Proof.
  induction lines as [|[line|e0] rest IH]; intros acc e; simpl; [discriminate| |].
  - destruct (parse_line_raises line) as (He & _).
    destruct (Parse.parse_line py_float line) as [[[key matrix]|]|e'].
    + intros H. destruct (IH _ _ H); auto.
    + intros H. destruct (IH _ _ H); auto.
    + intros [= <-]. right. apply He. reflexivity.
  - intros [= <-]. auto.
Qed.

(** What [parse_links] raises, and when. It raises what [open] raises
    when the file cannot be opened. On a file that is read to its end it
    raises only [ValueError], and exactly when some line that has a name
    and neighbour tokens has a token that [parse_str] rejects. When reading
    fails after some lines, it raises the [ValueError] of a rejected token
    of those lines if there is one, and what the reading raised otherwise.
    It raises nothing else, and then returns nothing of what it had read. *)
Theorem parse_links_raises_exactly (fs : File.system) (filename : string) :
  (forall e, fs filename = Raise e -> File.parse_links py_float fs filename = Raise e) /\
  (forall lines, fs filename = Ok (List.map Ok lines) ->
     File.parse_links py_float fs filename = Parse.parse_links py_float lines /\
     (forall e, File.parse_links py_float fs filename = Raise e -> e = ValueError) /\
     (File.parse_links py_float fs filename = Raise ValueError <->
      exists line name links link,
        In line lines /\ Str.split " " (Str.strip line) = name :: links /\
        In link links /\ Parse.parse_str py_float link = Raise ValueError)) /\
  (forall before e rest, fs filename = Ok (List.map Ok before ++ Raise e :: rest) ->
     File.parse_links py_float fs filename
     = match Parse.parse_links py_float before with
       | Ok _ => Raise e
       | Raise e' => Raise e'
       end) /\
  (forall e, File.parse_links py_float fs filename = Raise e ->
     fs filename = Raise e \/
     exists opened, fs filename = Ok opened /\ (In (Raise e) opened \/ e = ValueError)).
Proof.
  unfold File.parse_links. split; [|split; [|split]].
  - intros e ->. reflexivity.
  - intros lines ->. rewrite read_links_lines.
    change (Parse.parse_lines py_float lines Dict.empty)
      with (Parse.parse_links py_float lines).
    split; [reflexivity|]. apply parse_lines_raise.
  - intros before e rest ->. apply read_links_failure.
  - intros e. destruct (fs filename) as [opened|e0].
    + intros H. right. exists opened. split; [reflexivity|].
      apply (read_links_raised _ _ _ H).
    + intros [= <-]. left; reflexivity.
Qed.

Lemma parse_lines_skip before line after : forall acc,
  Parse.parse_line py_float line = Ok None ->
  Parse.parse_lines py_float (before ++ line :: after) acc
  = Parse.parse_lines py_float (before ++ after) acc.
Proof.
  intros acc Hline. revert acc. induction before as [|l before IH]; intros acc; simpl.
  - rewrite Hline. reflexivity.
  - destruct (Parse.parse_line py_float l) as [[[key matrix]|]|e]; auto.
Qed.

(** A line that, stripped, has no space (a name alone, or nothing) is
    ignored wherever it stands: the file without it parses alike, to the
    same matrices or to the same exception. *)
Theorem line_without_space_is_ignored (before after : list string) (line : string) :
  ~ In " "%char (list_ascii_of_string (Str.strip line)) ->
  Parse.parse_links py_float (before ++ line :: after)
  = Parse.parse_links py_float (before ++ after).
Proof.
  intros Hspace. apply parse_lines_skip. unfold Parse.parse_line.
  rewrite (split_without_sep _ _ Hspace). reflexivity.
Qed.

End ParseErrorExtras.

Lemma line_without_space_is_ignored_witness :
  Parse.parse_links PyFloat.float_of_str ["A (B,1.0)"; "  C  "; "B (A,1.0)"]
  = Parse.parse_links PyFloat.float_of_str ["A (B,1.0)"; "B (A,1.0)"].
Proof.
  apply (line_without_space_is_ignored PyFloat.float_of_str ["A (B,1.0)"] ["B (A,1.0)"] "  C  ").
  simpl. intuition discriminate.
Defined.

(** ** [node.py]: more on the loop of [update_table] *)

Section RelaxExtras.
Import Node Relax Actor Examples.
Local Open Scope float_scope.

Lemma ltb_irrefl (x : float) : (x <? x) = false.
Proof.
  rewrite FloatAxioms.ltb_spec. unfold SFltb.
  destruct (Prim2SF x) as [[]|[]| |[] m e]; simpl; try reflexivity;
    rewrite Z.compare_refl, Pos.compare_cont_refl; reflexivity.
Qed.

Lemma relax_keys network self packet :
  Dict.keys (table (fst (relax network self packet))) = Dict.keys (map self).
Proof.
  unfold relax, relax_loop. cbn [table].
  apply (for_each_inv _ (fun s => Dict.keys (table s) = Dict.keys (map self)));
    [|reflexivity].
  intros d s Hd Hs.
  destruct (proj2 (get_In (table s) d)) as [hb Hb]; [rewrite Hs; exact Hd|].
  destruct (relax_destination_inv network (Packet.content packet) d s hb Hb) as (Hk & _).
  congruence.
Qed.

(** The loop never adds, removes or reorders a destination, whether it
    ends normally or raises: a table with distinct keys keeps them, and
    a destination is in the table after the loop exactly when it was in
    it before. *)
Theorem relax_keeps_the_destinations (network : registry) (self : t) (packet : Packet.t) :
  Dict.keys (table (fst (relax network self packet))) = Dict.keys (map self) /\
  (Dict.wf (map self) -> Dict.wf (table (fst (relax network self packet)))) /\
  (forall d, Dict.contains (table (fst (relax network self packet))) d
             = Dict.contains (map self) d).
Proof.
  pose proof (relax_keys network self packet) as H.
  split; [exact H|]. split; [unfold Dict.wf; rewrite H; tauto|].
  intros d. destruct (Dict.contains (map self) d) eqn:E.
  - apply contains_In. rewrite H. apply contains_In, E.
  - destruct (Dict.contains (table (fst (relax network self packet))) d) eqn:E'; [|reflexivity].
    apply contains_In in E'. rewrite H in E'. apply contains_In in E'. congruence.
Qed.

(** What the pass of a pair writes, when it writes. *)
Lemma relax_pair_outcome network d cur n s :
  fst (relax_pair network d cur n s) = s \/
  exists midway tv vd target hop,
    lookups network s d n midway tv vd /\
    falsy vd = false /\ (tv + vd <? cur) = true /\
    Dict.get network d = Some target /\
    HopsMap.pass_through (map target) (name midway) = Ok hop /\
    relax_pair network d cur n s =
      (Locals (Dict.setitem (table s) d (HopInfo.Build hop (tv + vd))) true, Ok tt).
Proof.
  unfold relax_pair, bind, eval, ret, assign, mark_edited, lookups, Dict.getitem.
  destruct (Dict.get network n) as [midway|]; [|left; reflexivity].
  destruct (HopsMap.distance_to (table s) n) as [tv|e] eqn:Etv; [|left; reflexivity].
  destruct (distance_to midway d) as [vd|e] eqn:Evd; [|left; reflexivity].
  destruct (falsy vd) eqn:Ez; [left; reflexivity|].
  destruct (tv + vd <? cur) eqn:Elt; [|left; reflexivity].
  destruct (Dict.get network d) as [target|] eqn:Et; [|left; reflexivity].
  destruct (HopsMap.pass_through (map target) (name midway)) as [hop|e] eqn:Eh;
    [|left; reflexivity].
  right. exists midway, tv, vd, target, hop. cbn [table edited]. auto 10.
Qed.

(** An entry [h] that the pass for [d] may write while the table is
    [tbl]: its distance is the sum of the distance at which [tbl] holds a
    node [n] named by a key of the received table (line 175) and of the
    nonzero distance at which the registry's node [n] holds [d] (line 176);
    it is below [cur]; and its next hop is the one that the registry node
    of [d] itself records towards [n] (line 189). *)
Definition written (network : registry) (ns : list string) (d : string) (cur : float)
    (tbl : HopsMap.t) (h : HopInfo.t) : Prop :=
  exists n midway target tv vd,
    In n ns /\ Dict.get network n = Some midway /\
    HopsMap.distance_to tbl n = Ok tv /\
    distance_to midway d = Ok vd /\ falsy vd = false /\
    Dict.get network d = Some target /\
    HopsMap.pass_through (map target) (name midway) = Ok (HopInfo.next_hop h) /\
    HopInfo.best_distance h = tv + vd /\ (tv + vd <? cur) = true.

(** A table [tbl] met during the pass for [d] that started from [m0]: the
    other entries are those of [m0], and the entry of [d] is that of [m0]
    or holds a distance below [cur]. *)
Definition during (m0 : HopsMap.t) (d : string) (cur : float) (tbl : HopsMap.t) : Prop :=
  (forall d', d' <> d -> Dict.get tbl d' = Dict.get m0 d') /\
  exists hd, Dict.get tbl d = Some hd /\
    (Dict.get m0 d = Some hd \/ (HopInfo.best_distance hd <? cur) = true).

(** The state [s] reached in the pass for [d] that started in [s0]. *)
Definition pass_inv (network : registry) (ns : list string) (d : string) (cur : float)
    (s0 s : locals) : Prop :=
  Dict.keys (table s) = Dict.keys (table s0) /\
  (forall d', d' <> d -> Dict.get (table s) d' = Dict.get (table s0) d') /\
  ((table s = table s0 /\ edited s = edited s0) \/
   (edited s = true /\
    exists tbl h, Dict.get (table s) d = Some h /\ written network ns d cur tbl h /\
      during (table s0) d cur tbl)).

Lemma relax_pair_pass network ns d cur n s0 s :
  In d (Dict.keys (table s0)) -> In n ns ->
  pass_inv network ns d cur s0 s ->
  pass_inv network ns d cur s0 (fst (relax_pair network d cur n s)).
Proof.
  intros Hd Hn (Hk & Hf & He).
  destruct (relax_pair_outcome network d cur n s)
    as [->|(mw & tv & vd & target & hop & (Hm & Htv & Hvd) & Hz & Hlt & Ht & Hh & ->)].
  { exact (conj Hk (conj Hf He)). }
  cbn [fst]. unfold pass_inv. cbn [table edited]. split; [|split].
  - rewrite keys_setitem_present; [exact Hk|]. rewrite Hk. exact Hd.
  - intros d' Hne. rewrite get_setitem_ne by congruence. apply Hf, Hne.
  - right. split; [reflexivity|]. exists (table s). eexists. rewrite get_setitem_eq.
    split; [reflexivity|]. split.
    + exists n, mw, target, tv, vd. cbn. auto 10.
    + split; [exact Hf|].
      destruct He as [[Ht0 _]|(_ & tbl & h & Hget & Hw & _)].
      * apply get_In in Hd. destruct Hd as [hd Hhd]. exists hd. rewrite Ht0. auto.
      * exists h. split; [exact Hget|]. right.
        destruct Hw as (? & ? & ? & ? & ? & _ & _ & _ & _ & _ & _ & _ & -> & Hlt').
        exact Hlt'.
Qed.

Lemma relax_destination_pass network nt d s hb :
  Dict.get (table s) d = Some hb ->
  pass_inv network (Dict.keys nt) d (HopInfo.best_distance hb) s
    (fst (relax_destination network nt d s)).
Proof.
  intros Hget. unfold relax_destination, bind, eval at 1.
  unfold HopsMap.distance_to, Dict.getitem. rewrite Hget.
  apply (for_each_inv _ (pass_inv network (Dict.keys nt) d (HopInfo.best_distance hb) s)).
  - intros n s1 Hn. apply relax_pair_pass; [|exact Hn]. apply get_In. eauto.
  - split; [reflexivity|]. split; [reflexivity|]. left. split; reflexivity.
Qed.

(** The loop over destinations that are all different: what it has
    written for each, from which table, and whether it has set [edited]. *)
Lemma outer_pass network nt ds :
  NoDup ds ->
  forall s, (forall d, In d ds -> In d (Dict.keys (table s))) ->
  let s' := fst (for_each ds (relax_destination network nt) s) in
  Dict.keys (table s') = Dict.keys (table s) /\
  (forall d, ~ In d ds -> Dict.get (table s') d = Dict.get (table s) d) /\
  (forall d hb, In d ds -> Dict.get (table s) d = Some hb ->
     Dict.get (table s') d = Some hb \/
     exists ha tbl, Dict.get (table s') d = Some ha /\
       written network (Dict.keys nt) d (HopInfo.best_distance hb) tbl ha /\
       (forall d', ~ In d' ds -> Dict.get tbl d' = Dict.get (table s) d') /\
       (forall pre post, ds = pre ++ d :: post ->
          (forall d', In d' pre -> Dict.get tbl d' = Dict.get (table s') d') /\
          (forall d', In d' post -> Dict.get tbl d' = Dict.get (table s) d')) /\
       exists hd, Dict.get tbl d = Some hd /\
         (hd = hb \/ (HopInfo.best_distance hd <? HopInfo.best_distance hb) = true)) /\
  ((table s' = table s /\ edited s' = edited s) \/
   (edited s' = true /\
    exists d hb ha, In d ds /\ Dict.get (table s) d = Some hb /\
      Dict.get (table s') d = Some ha /\
      (HopInfo.best_distance ha <? HopInfo.best_distance hb) = true)).
Proof.
  induction 1 as [|d0 ds Hnotin Hnd IH]; intros s Hin; cbn [for_each].
  { cbn. repeat split; auto. }
  destruct (proj2 (get_In (table s) d0) (Hin d0 (or_introl eq_refl))) as [hb0 Hget0].
  pose proof (relax_destination_pass network nt d0 s hb0 Hget0) as (Hk1 & Hf1 & He1).
  (* the entry of [d0], once its pass is over *)
  assert (Hd0 : forall s', Dict.get (table s') d0
                           = Dict.get (table (fst (relax_destination network nt d0 s))) d0 ->
            Dict.get (table s') d0 = Some hb0 \/
            exists ha tbl, Dict.get (table s') d0 = Some ha /\
              written network (Dict.keys nt) d0 (HopInfo.best_distance hb0) tbl ha /\
              (forall d', ~ In d' (d0 :: ds) -> Dict.get tbl d' = Dict.get (table s) d') /\
              (forall pre post, d0 :: ds = pre ++ d0 :: post ->
                 (forall d', In d' pre -> Dict.get tbl d' = Dict.get (table s') d') /\
                 (forall d', In d' post -> Dict.get tbl d' = Dict.get (table s) d')) /\
              exists hd, Dict.get tbl d0 = Some hd /\
                (hd = hb0 \/
                 (HopInfo.best_distance hd <? HopInfo.best_distance hb0) = true)).
  { intros s' Hs'.
    destruct He1 as [[Ht _]|(_ & tbl & h & Hh & Hw & Hfr & hd & Hhd & Hor)].
    - left. rewrite Hs', Ht. exact Hget0.
    - right. exists h, tbl. split; [congruence|]. split; [exact Hw|]. split; [|split].
      + intros d' Hd'. apply Hfr. intros ->. apply Hd'. left; reflexivity.
      + intros pre post Hsplit. destruct pre as [|x pre].
        * injection Hsplit as <-. split; [intros d' []|].
          intros d' Hd'. apply Hfr. intros ->. contradiction.
        * injection Hsplit as <- ->. exfalso. apply Hnotin, in_or_app.
          right; left; reflexivity.
      + exists hd. split; [exact Hhd|]. destruct Hor as [Hsame|Hlt]; [left|right; exact Hlt].
        congruence. }
  (* whether the pass of [d0] has set [edited] *)
  assert (Hg0 : (table (fst (relax_destination network nt d0 s)) = table s /\
                 edited (fst (relax_destination network nt d0 s)) = edited s) \/
                (edited (fst (relax_destination network nt d0 s)) = true /\
                 exists ha, Dict.get (table (fst (relax_destination network nt d0 s))) d0
                            = Some ha /\
                   (HopInfo.best_distance ha <? HopInfo.best_distance hb0) = true)).
  { destruct He1 as [H|(Hed & tbl & h & Hh & Hw & _)]; [left; exact H|right].
    split; [exact Hed|]. exists h. split; [exact Hh|].
    destruct Hw as (? & ? & ? & ? & ? & _ & _ & _ & _ & _ & _ & _ & -> & Hlt). exact Hlt. }
  unfold bind.
  destruct (relax_destination network nt d0 s) as [s1 [[]|e]] eqn:E1; cbn [fst] in *.
  - assert (Hin1 : forall d, In d ds -> In d (Dict.keys (table s1))).
    { intros d Hd. rewrite Hk1. apply Hin. right. exact Hd. }
    destruct (IH s1 Hin1) as (Hk & Hf & Hd & Hg).
    cbv zeta in *. set (s' := fst (for_each ds (relax_destination network nt) s1)) in *.
    assert (H0 : Dict.get (table s') d0 = Dict.get (table s1) d0) by (apply Hf, Hnotin).
    split; [congruence|]. split; [|split].
    + intros d Hd'. simpl in Hd'. rewrite Hf by tauto. apply Hf1. intros ->. tauto.
    + intros d hb [<-|Hd'] Hb.
      * rewrite Hget0 in Hb. injection Hb as <-. apply Hd0, H0.
      * assert (Hne : d <> d0) by (intros ->; contradiction).
        assert (Hb1 : Dict.get (table s1) d = Some hb) by (rewrite Hf1; assumption).
        destruct (Hd d hb Hd' Hb1) as [Hsame|(ha & tbl & Ha & Hw & Hout & Hsplit & Hhd)];
          [left; exact Hsame|right].
        exists ha, tbl. split; [exact Ha|]. split; [exact Hw|]. split; [|split; [|exact Hhd]].
        -- intros d' Hd''. simpl in Hd''. rewrite Hout by tauto. apply Hf1.
           intros ->. tauto.
        -- intros pre post Hs. destruct pre as [|x pre].
           { injection Hs as -> _. contradiction. }
           injection Hs as <- ->. destruct (Hsplit pre post eq_refl) as (Hpre & Hpost).
           split.
           ++ intros d' [<-|Hd'']; [|apply Hpre, Hd''].
              rewrite (Hout d0 Hnotin). symmetry. exact H0.
           ++ intros d' Hd''. rewrite (Hpost d' Hd''). apply Hf1. intros ->.
              apply Hnotin, in_or_app. right; right; exact Hd''.
    + destruct Hg as [[Ht Hed]|(Hed & d & hb & ha & Hd' & Hb & Ha & Hlt)].
      * destruct Hg0 as [[Ht1 Hed1]|(Hed1 & h & Hh & Hlt)].
        -- left. split; congruence.
        -- right. split; [congruence|]. exists d0, hb0, h.
           split; [left; reflexivity|]. split; [exact Hget0|]. split; [congruence|exact Hlt].
      * right. split; [exact Hed|]. exists d, hb, ha. split; [right; exact Hd'|].
        split; [|split; assumption]. rewrite <- Hf1; [exact Hb|]. intros ->. contradiction.
  - split; [exact Hk1|]. split; [|split].
    + intros d Hd'. simpl in Hd'. apply Hf1. intros ->. tauto.
    + intros d hb [<-|Hd'] Hb.
      * rewrite Hget0 in Hb. injection Hb as <-. apply Hd0. reflexivity.
      * left. rewrite Hf1; [exact Hb|]. intros ->. contradiction.
    + destruct Hg0 as [H|(Hed1 & h & Hh & Hlt)]; [left; exact H|].
      right. split; [exact Hed1|]. exists d0, hb0, h. simpl. auto.
Qed.

(** [edited] tells whether the table changed. For a table with distinct
    keys, the loop leaves [edited] false exactly when the table is what it
    was at entry, and sets it exactly when some destination ends with a
    distance strictly below the one it had; so [update_table] sends again
    only after an improvement. *)
Theorem edited_exactly_when_a_distance_fell (network : registry) (self : t)
    (packet : Packet.t) :
  Dict.wf (map self) ->
  let s' := fst (relax network self packet) in
  (edited s' = false <-> table s' = map self) /\
  (edited s' = true <->
   exists d before after,
     Dict.get (map self) d = Some before /\ Dict.get (table s') d = Some after /\
     (HopInfo.best_distance after <? HopInfo.best_distance before) = true).
Proof.
  intros Hwf.
  destruct (outer_pass network (Packet.content packet) (Dict.keys (map self)) Hwf
              (Locals (map self) false) (fun d H => H)) as (_ & _ & _ & Hg).
  cbv zeta in *. cbn [table edited] in Hg.
  change (for_each (Dict.keys (map self))
            (relax_destination network (Packet.content packet)) (Locals (map self) false))
    with (relax network self packet) in Hg.
  assert (Hsame : table (fst (relax network self packet)) = map self ->
            forall d hb ha,
              Dict.get (map self) d = Some hb ->
              Dict.get (table (fst (relax network self packet))) d = Some ha ->
              (HopInfo.best_distance ha <? HopInfo.best_distance hb) = true -> False).
  { intros Ht d hb ha Hb Ha Hlt. rewrite Ht, Hb in Ha. injection Ha as <-.
    rewrite ltb_irrefl in Hlt. discriminate. }
  destruct Hg as [[Ht He]|(He & d & hb & ha & _ & Hb & Ha & Hlt)].
  - rewrite He. split; [tauto|]. split; [discriminate|].
    intros (d & hb & ha & Hb & Ha & Hlt). exfalso. eapply Hsame; eassumption.
  - rewrite He. split.
    + split; [discriminate|]. intros Ht. exfalso.
      eapply (Hsame Ht); eauto.
    + split; [|reflexivity]. intros _. exists d, hb, ha. eauto.
Qed.

(** A's table after B's packet: [edited] is set and D fell from 10 to 7. *)
Lemma edited_exactly_when_a_distance_fell_witness :
  edited (fst (relax net nodeA (packet_from nodeB))) = true /\
  exists d before after,
    Dict.get tableA d = Some before /\
    Dict.get (table (fst (relax net nodeA (packet_from nodeB)))) d = Some after /\
    (HopInfo.best_distance after <? HopInfo.best_distance before) = true.
Proof.
  destruct (edited_exactly_when_a_distance_fell net nodeA (packet_from nodeB) tableA_wf)
    as (_ & Hiff).
  split; [reflexivity|]. apply Hiff. reflexivity.
Defined.

(** What the loop can have written. For a table with distinct keys, each
    entry after the loop is the entry at entry, or an entry the pass of
    its destination [d] wrote: its distance is the sum [toVia + viaToDest]
    of the distance [toVia] at which the node's table then held a node [n]
    named in the received table, and of the nonzero distance [viaToDest] at
    which the registry's node [n] holds [d]; the sum is below the distance
    of [d] at entry; the next hop is the one the registry node of [d]
    records towards [n], so that nothing is written for a destination the
    registry lacks. The table read then holds, for the destinations before
    [d], the entries the loop ends with, for those after [d] and for
    every other name what the table held at entry, and for [d] itself its
    entry at entry or a lower distance written earlier in the pass. *)
Theorem relax_writes_only_candidates (network : registry) (self : t)
    (packet : Packet.t) (d : string) (before : HopInfo.t) :
  Dict.wf (map self) ->
  Dict.get (map self) d = Some before ->
  let s' := fst (relax network self packet) in
  Dict.get (table s') d = Some before \/
  exists after tbl,
    Dict.get (table s') d = Some after /\
    written network (Dict.keys (Packet.content packet)) d
      (HopInfo.best_distance before) tbl after /\
    (forall pre post, Dict.keys (map self) = pre ++ d :: post ->
       (forall d', In d' pre -> Dict.get tbl d' = Dict.get (table s') d') /\
       (forall d', In d' post -> Dict.get tbl d' = Dict.get (map self) d')) /\
    (forall d', ~ In d' (Dict.keys (map self)) -> Dict.get tbl d' = None) /\
    (exists hd, Dict.get tbl d = Some hd /\
       (hd = before \/
        (HopInfo.best_distance hd <? HopInfo.best_distance before) = true)) /\
    (Dict.get network d = None -> False).
Proof.
  intros Hwf Hget.
  destruct (outer_pass network (Packet.content packet) (Dict.keys (map self)) Hwf
              (Locals (map self) false) (fun d H => H)) as (_ & _ & Hd & _).
  destruct (Hd d before) as [Hsame|(after & tbl & Ha & Hw & Hout & Hsplit & Hhd)].
  - apply get_In. eauto.
  - exact Hget.
  - left. exact Hsame.
  - right. exists after, tbl. split; [exact Ha|]. split; [exact Hw|].
    split; [exact Hsplit|]. split; [|split; [exact Hhd|]].
    + intros d' Hd'. rewrite (Hout d' Hd'). cbn [table].
      destruct (Dict.get (map self) d') as [h|] eqn:E; [|reflexivity].
      exfalso. apply Hd', get_In. eauto.
    + destruct Hw as (n & mw & tg & tv & vd & _ & _ & _ & _ & _ & Ht & _). congruence.
Qed.

(** D in A's table after B's packet: written through C, with the next hop
    that D's own table holds for C and the distance 2 at which the table
    of A held C plus the 5 from C to D. *)
Lemma relax_writes_only_candidates_witness :
  exists after tbl,
    Dict.get (table (fst (relax net nodeA (packet_from nodeB)))) "D" = Some after /\
    written net (Dict.keys tableB) "D" 10 tbl after /\
    Dict.get tbl "C" = Some (HopInfo.Build "C" 2).
Proof.
  destruct (relax_writes_only_candidates net nodeA (packet_from nodeB) "D"
              (HopInfo.Build "D" 10) tableA_wf eq_refl)
    as [Hsame|(after & tbl & Ha & Hw & Hsplit & _)].
  - vm_compute in Hsame. discriminate Hsame.
  - exists after, tbl. split; [exact Ha|]. split; [exact Hw|].
    destruct (Hsplit ["A"; "B"; "C"]%string [] eq_refl) as (Hpre & _).
    rewrite (Hpre "C"%string); [reflexivity|]. simpl. tauto.
Defined.

(** With nothing to read the loop does nothing: if the received table is
    empty, or the node's own table is, the loop ends normally with the
    table unchanged and [edited] false, whatever the registry holds. *)
Theorem relax_with_nothing_to_read (network : registry) (self : t) (packet : Packet.t) :
  Packet.content packet = [] \/ map self = [] ->
  relax network self packet = (Locals (map self) false, Ok tt).
Proof.
  intros H. unfold relax, relax_loop. cbn [table]. apply for_each_id. intros d Hd.
  destruct H as [Hp|Hm]; [|rewrite Hm in Hd; destruct Hd].
  unfold relax_destination, bind, eval at 1. cbn [table]. rewrite Hp. cbn.
  apply get_In in Hd. destruct Hd as [hb Hb].
  unfold HopsMap.distance_to, Dict.getitem. rewrite Hb. reflexivity.
Qed.

Lemma relax_with_nothing_to_read_witness :
  relax [] nodeA (Packet.Build "empty" [] None) = (Locals tableA false, Ok tt).
Proof.
  apply (relax_with_nothing_to_read [] nodeA (Packet.Build "empty" [] None)).
  left. reflexivity.
Defined.

End RelaxExtras.

(** ** [node.py]: normalising again *)

Section NormalisedExtras.
Import Node Actor Examples.

Lemma extend_identity nodes : forall m,
  (forall node, In node nodes -> In (name node) (Dict.keys m)) -> extend m nodes = m.
Proof.
  induction nodes as [|node rest IH]; intros m H; simpl; [reflexivity|].
  assert (Hc : Dict.contains m (name node) = true)
    by (apply contains_In, H; left; reflexivity).
  rewrite Hc. apply IH. intros n Hn. apply H. right; exact Hn.
Qed.

(** A normalised node stays as it is when it is normalised again, against
    the same registry or against any registry whose nodes bear names of the
    first one (as when [main.py] normalises the nodes one after the other
    and republishes each). *)
Theorem normalised_again_changes_nothing (self : t) (network network' : registry) :
  (forall node', In node' (Dict.values network') ->
     exists node, In node (Dict.values network) /\ name node = name node') ->
  normalised (normalised self network) network' = normalised self network.
Proof.
  intros Hnames. unfold normalised at 1. cbn [name map queue].
  rewrite extend_identity; [reflexivity|].
  intros node' Hin. apply in_neighbours in Hin. cbn [name] in Hin.
  destruct Hin as [Hin Hne]. destruct (Hnames node' Hin) as (node & Hnode & Heq).
  rewrite <- Heq. apply extend_covers, in_neighbours. split; [exact Hnode|].
  intros Hx. apply Hne. unfold normalised. cbn [name]. congruence.
Qed.

Lemma normalised_again_changes_nothing_witness :
  normalised (normalised (Build "A" [hop "A" 0%float] None) net) net
  = normalised (Build "A" [hop "A" 0%float] None) net.
Proof.
  apply (normalised_again_changes_nothing (Build "A" [hop "A" 0%float] None) net net).
  intros node' H. exists node'. split; [exact H|reflexivity].
Defined.

End NormalisedExtras.

(** ** [node.py]: sending and draining *)

Section ActorExtras.
Import Node Relax Actor Examples.

(** The destinations that get the packet: those before the first one
    without a queue. *)
Fixpoint served (destinations : list t) : list t :=
  match destinations with
  | [] => []
  | d :: rest => match queue d with Some _ => d :: served rest | None => [] end
  end.

(** How many of the nodes have inbox [q]. *)
Fixpoint inboxes (q : nat) (nodes : list t) : nat :=
  match nodes with
  | [] => 0
  | d :: rest =>
      match queue d with
      | Some q' => if Nat.eqb q q' then S (inboxes q rest) else inboxes q rest
      | None => inboxes q rest
      end
  end.

Lemma send_all_shape destinations packet : forall w,
  network (fst (send_all destinations packet w)) = network w /\
  clock (fst (send_all destinations packet w)) = clock w /\
  (forall q, queues (fst (send_all destinations packet w)) q
             = queues w q ++ repeat packet (inboxes q (served destinations))) /\
  snd (send_all destinations packet w)
  = if Nat.eqb (List.length (served destinations)) (List.length destinations)
    then Ok tt else Raise (AttributeError "queue").
Proof.
  induction destinations as [|d rest IH]; intros w; cbn [send_all served].
  - cbn. repeat split. intros q. rewrite app_nil_r. reflexivity.
  - unfold and_send. destruct (queue d) as [q0|] eqn:Eq.
    + destruct (IH (World (network w) (put (queues w) q0 packet) (clock w)))
        as (Hn & Hc & Hq & Hr).
      rewrite Hn, Hc, Hr. cbn [network clock queues]. repeat split.
      intros q. rewrite Hq. cbn [queues inboxes]. rewrite Eq. unfold put.
      destruct (Nat.eqb q q0); [|reflexivity].
      rewrite <- app_assoc. reflexivity.
    + cbn. repeat split. intros q. rewrite app_nil_r. reflexivity.
Qed.

(** The loop of [send_packets] appends the packet, once per destination
    with that inbox and behind what the inbox held, to the inboxes of the
    destinations that come before the first one without a queue; it leaves
    the registry and the clock alone; and it ends normally when every
    destination has a queue, with [AttributeError] otherwise. *)
Theorem send_all_appends_to_each_inbox (destinations : list t) (packet : Packet.t)
    (w : world) :
  let w' := fst (send_all destinations packet w) in
  network w' = network w /\
  clock w' = clock w /\
  (forall q, queues w' q = queues w q ++ repeat packet (inboxes q (served destinations))) /\
  (Forall (fun d => queue d <> None) destinations ->
   served destinations = destinations /\ snd (send_all destinations packet w) = Ok tt) /\
  (~ Forall (fun d => queue d <> None) destinations ->
   snd (send_all destinations packet w) = Raise (AttributeError "queue")).
Proof.
  destruct (send_all_shape destinations packet w) as (Hn & Hc & Hq & Hr).
  cbv zeta. split; [exact Hn|]. split; [exact Hc|]. split; [exact Hq|].
  assert (Hserved : Forall (fun d => queue d <> None) destinations <->
                    served destinations = destinations).
  { clear. induction destinations as [|d rest IH]; simpl; [split; auto|].
    destruct (queue d) as [q0|] eqn:E; split.
    - intros H. inversion H; subst. f_equal. tauto.
    - intros [= H]. constructor; [congruence|tauto].
    - intros H. inversion H; subst. congruence.
    - discriminate. }
  assert (Hlen : Nat.eqb (List.length (served destinations)) (List.length destinations) = true
                 <-> served destinations = destinations).
  { clear. rewrite Nat.eqb_eq. split; [|congruence].
    induction destinations as [|d rest IH]; simpl; [reflexivity|].
    destruct (queue d); [|discriminate]. simpl. intros [= H]. f_equal. exact (IH H). }
  rewrite Hr. split.
  - intros H. apply Hserved in H. split; [exact H|]. rewrite (proj2 Hlen H). reflexivity.
  - intros H. destruct (Nat.eqb _ _) eqn:E; [|reflexivity].
    exfalso. apply H, Hserved, Hlen. reflexivity.
Qed.

Lemma settled_relax network self packet :
  settled network (map self) (Packet.content packet) ->
  relax network self packet = (Locals (map self) false, Ok tt).
Proof.
  intros Hs. unfold relax, relax_loop. cbn [table]. apply for_each_id. intros d Hd.
  unfold relax_destination, bind, eval at 1. cbn [table].
  destruct (proj2 (get_In (map self) d) Hd) as [hb Hb].
  unfold HopsMap.distance_to at 1, Dict.getitem. rewrite Hb.
  apply for_each_id. intros n Hn.
  destruct (Hs d n Hd Hn) as (hb' & midway & tv & vd & Hb' & Hm & Htv & Hvd & Hlt).
  rewrite Hb in Hb'. injection Hb' as <-.
  unfold relax_pair, bind, eval, ret, Dict.getitem. cbn [table].
  rewrite Hm, Htv, Hvd, Hlt. destruct (falsy vd); reflexivity.
Qed.

(** Draining at a fixed point ends. A node that is published as it is and
    for which every packet of its inbox is settled reads them all, with
    more fuel than there are packets: the task ends normally, the node and
    the registry are what they were, its inbox is empty, and no other
    inbox and no clock reading was touched. *)
Theorem settled_inbox_is_drained (fuel : nat) : forall (self : t) (w : world) (q : nat),
  queue self = Some q ->
  List.length (queues w q) < fuel ->
  Dict.get (network w) (name self) = Some self ->
  (forall packet, In packet (queues w q) ->
     settled (network w) (map self) (Packet.content packet)) ->
  let r := wait_for_packets fuel self w in
  status_of r = Done /\ self_of r = self /\
  network (world_of r) = network w /\ clock (world_of r) = clock w /\
  queues (world_of r) q = [] /\
  forall i, i <> q -> queues (world_of r) i = queues w i.
Proof.
  induction fuel as [|fuel IH]; intros self w q Hq Hlen Hpub Hall; [inversion Hlen|].
  cbn [wait_for_packets]. rewrite Hq.
  destruct (queues w q) as [|packet rest] eqn:Einbox.
  { cbn. rewrite Einbox. repeat split. }
  destruct fuel as [|fuel']; [simpl in Hlen; lia|].
  assert (Hrelax := settled_relax (network w) self packet (Hall packet (or_introl eq_refl))).
  cbn [update_table network queues clock]. rewrite Hrelax. cbn [table edited status_of].
  replace (Build (name self) (map self) (queue self)) with self by (destruct self; reflexivity).
  rewrite (setitem_same _ _ _ _ Hpub).
  cbn [self_of world_of].
  set (w1 := World (network w) (pop (queues w) q) (clock w)).
  assert (Hq1 : queues w1 q = rest).
  { unfold w1, pop. cbn. rewrite Nat.eqb_refl, Einbox. reflexivity. }
  destruct (IH self w1 q Hq) as (Hs & Hself & Hn & Hc & Hempty & Hothers).
  - rewrite Hq1. simpl in Hlen. lia.
  - exact Hpub.
  - intros p Hp. rewrite Hq1 in Hp. apply Hall. right; exact Hp.
  - split; [exact Hs|]. split; [exact Hself|]. split; [exact Hn|]. split; [exact Hc|].
    split; [exact Hempty|]. intros i Hi. rewrite (Hothers i Hi). unfold w1, pop. cbn.
    destruct (Nat.eqb_spec i q); [contradiction|reflexivity].
Qed.

(** Node A at the fixed point, with the tables of B and C in its inbox. *)
Definition settledA : t := Build "A" finalA (Some 0).
Definition settled_world : world :=
  World final_net
    (fun i => if Nat.eqb i 0
              then [packet_from (Build "B" finalB (Some 1)); packet_from (Build "C" finalC (Some 2))]
              else []) [].

Lemma settled_inbox_is_drained_witness :
  status_of (wait_for_packets 3 settledA settled_world) = Done /\
  self_of (wait_for_packets 3 settledA settled_world) = settledA /\
  queues (world_of (wait_for_packets 3 settledA settled_world)) 0 = [].
Proof.
  destruct (settled_inbox_is_drained 3 settledA settled_world 0 eq_refl)
    as (Hs & Hself & _ & _ & Hq & _).
  - simpl. lia.
  - reflexivity.
  - intros packet Hp d n Hd Hn. simpl in Hp.
    destruct Hp as [<-|[<-|[]]]; simpl in Hd, Hn;
      repeat (destruct Hd as [<-|Hd]; [|try contradiction]);
      repeat (destruct Hn as [<-|Hn]; [|try contradiction]);
      do 4 eexists; repeat split; reflexivity.
  - auto.
Defined.

(** What a task of a node may touch. *)
Definition owned (self : t) (w : world) (r : run) : Prop :=
  name (self_of r) = name self /\
  queue (self_of r) = queue self /\
  Dict.keys (map (self_of r)) = Dict.keys (map self) /\
  forall k, k <> name self -> Dict.get (network (world_of r)) k = Dict.get (network w) k.

Lemma owned_chain self w r r' :
  owned self w r -> owned (self_of r) (world_of r) r' -> owned self w r'.
Proof.
  intros (Hn & Hq & Hk & Hreg) (Hn' & Hq' & Hk' & Hreg').
  split; [congruence|]. split; [congruence|]. split; [congruence|].
  intros k Hne. rewrite Hreg' by congruence. apply Hreg, Hne.
Qed.

Lemma owned_by_all (fuel : nat) :
  (forall self packet w, owned self w (send_packets fuel self packet w)) /\
  (forall self w, owned self w (wait_for_packets fuel self w)) /\
  (forall self packet w, owned self w (update_table fuel self packet w)).
Proof.
  induction fuel as [|fuel (IHsend & IHwait & IHupdate)].
  { repeat split. }
  split; [|split].
  - intros self packet w. cbn [send_packets].
    set (start := match packet with
                  | Some p => (p, w)
                  | None => (dummy_packet self (hd 0%Z (clock w)),
                             World (network w) (queues w) (tl (clock w)))
                  end).
    assert (Hstart : network (snd start) = network w) by (destruct packet; reflexivity).
    destruct start as [p w0]. cbn [snd] in Hstart.
    destruct (send_all_shape (neighbours self (network w0)) p w0) as (Hnet & _).
    destruct (send_all (neighbours self (network w0)) p w0) as [w1 [[]|e]]; cbn [fst] in Hnet.
    + destruct (IHwait self w1) as (Hn & Hq & Hk & Hreg).
      split; [exact Hn|]. split; [exact Hq|]. split; [exact Hk|].
      intros k Hne. rewrite (Hreg k Hne). congruence.
    + repeat split. intros k _. cbn. congruence.
  - intros self w. cbn [wait_for_packets].
    destruct (queue self) as [q|]; [|repeat split].
    destruct (queues w q) as [|packet rest]; [repeat split|].
    set (w1 := World (network w) (pop (queues w) q) (clock w)).
    assert (H1 : owned self w (update_table fuel self packet w1)).
    { destruct (IHupdate self packet w1) as (Hn & Hq & Hk & Hreg).
      split; [exact Hn|]. split; [exact Hq|]. split; [exact Hk|exact Hreg]. }
    destruct (status_of (update_table fuel self packet w1)); try exact H1.
    eapply owned_chain; [exact H1|apply IHwait].
  - intros self packet w. cbn [update_table].
    pose proof (relax_keys (network w) self packet) as Hkeys.
    destruct (relax (network w) self packet) as [s [[]|e]]; cbn [fst] in Hkeys.
    + set (proxy := Build (name self) (table s) (queue self)).
      set (w1 := World (Dict.setitem (network w) (name self) proxy) (queues w) (clock w)).
      assert (H1 : owned self w (Run proxy w1 Done)).
      { repeat split; [exact Hkeys|]. intros k Hne. cbn.
        apply get_setitem_ne. congruence. }
      destruct (edited s); [|exact H1].
      eapply owned_chain; [exact H1|]. cbn [self_of world_of]. apply IHsend.
    + repeat split. exact Hkeys.
Qed.

(** A task of a node writes the registry under the node's own name only,
    and keeps the node's name, its queue and the destinations of its
    table, however the task goes on and however it ends (normally, by an
    exception, or cut short), for [send_packets], [wait_for_packets] and
    [update_table] alike. *)
Theorem task_writes_only_its_own_entry (fuel : nat) (self : t) (w : world)
    (first : option Packet.t) (packet : Packet.t) (other : string) :
  other <> name self ->
  Dict.get (network (world_of (send_packets fuel self first w))) other
    = Dict.get (network w) other /\
  Dict.get (network (world_of (wait_for_packets fuel self w))) other
    = Dict.get (network w) other /\
  Dict.get (network (world_of (update_table fuel self packet w))) other
    = Dict.get (network w) other /\
  name (self_of (send_packets fuel self first w)) = name self /\
  queue (self_of (send_packets fuel self first w)) = queue self /\
  Dict.keys (map (self_of (send_packets fuel self first w))) = Dict.keys (map self).
Proof.
  intros Hne. destruct (owned_by_all fuel) as (Hsend & Hwait & Hupdate).
  destruct (Hsend self first w) as (Hn & Hq & Hk & Hreg).
  destruct (Hwait self w) as (_ & _ & _ & Hreg').
  destruct (Hupdate self packet w) as (_ & _ & _ & Hreg'').
  auto 10.
Qed.

Lemma task_writes_only_its_own_entry_witness :
  Dict.get (network (world_of (send_packets 5 nodeA None inbox_of_A))) "B"
  = Dict.get net "B".
Proof.
  apply (task_writes_only_its_own_entry 5 nodeA inbox_of_A None stray_packet "B").
  discriminate.
Defined.

Lemma served_all nodes (q : nat) :
  Forall (fun n => exists qn, queue n = Some qn /\ qn <> q) nodes ->
  served nodes = nodes /\ inboxes q nodes = 0.
Proof.
  induction 1 as [|n rest (qn & Hqn & Hne) _ (IH1 & IH2)]; simpl; [auto|].
  rewrite Hqn, IH1, IH2. destruct (Nat.eqb_spec q qn); [congruence|auto].
Qed.

(** An improvement is announced. When the loop has lowered a distance, the
    node's own inbox is empty and every other node of the registry has an
    inbox of its own, [update_table] publishes the node with its new table
    under its name, takes one clock reading, appends one packet holding
    the new table to the inbox of every other node of the registry, and
    ends normally. *)
Theorem improvement_is_announced (fuel : nat) (self : t) (packet : Packet.t) (w : world)
    (s : locals) (q : nat) :
  relax (network w) self packet = (s, Ok tt) ->
  edited s = true ->
  queue self = Some q ->
  queues w q = [] ->
  let proxy := Build (name self) (table s) (queue self) in
  let published := Dict.setitem (network w) (name self) proxy in
  let announce := dummy_packet proxy (hd 0%Z (clock w)) in
  Forall (fun n => exists qn, queue n = Some qn /\ qn <> q) (neighbours proxy published) ->
  let r := update_table (S (S (S fuel))) self packet w in
  status_of r = Done /\ self_of r = proxy /\
  network (world_of r) = published /\ clock (world_of r) = tl (clock w) /\
  Packet.content announce = table s /\
  forall i, queues (world_of r) i
            = queues w i ++ repeat announce (inboxes i (neighbours proxy published)).
Proof.
  intros Hrelax Hedited Hq Hinbox proxy published announce Hothers r.
  destruct (served_all _ q Hothers) as (Hserved & Hzero).
  unfold r. cbn [update_table]. rewrite Hrelax, Hedited. fold proxy. fold published.
  cbn [send_packets network queues clock]. fold announce.
  set (w1 := World published (queues w) (tl (clock w))).
  destruct (send_all_shape (neighbours proxy published) announce w1) as (Hn & Hc & Hqs & Hr).
  rewrite Hserved, Nat.eqb_refl in Hr. rewrite Hserved in Hqs.
  destruct (send_all (neighbours proxy published) announce w1) as [w2 res].
  cbn [fst snd] in *. subst res.
  cbn [wait_for_packets]. change (queue proxy) with (queue self). rewrite Hq.
  rewrite (Hqs q), Hzero. change (queues w1 q) with (queues w q). rewrite Hinbox.
  cbn [repeat app status_of self_of world_of].
  split; [reflexivity|]. split; [reflexivity|]. split; [exact Hn|]. split; [exact Hc|].
  split; [reflexivity|exact Hqs].
Qed.

(** A relaxes on B's packet with an empty inbox: B, C and D are told. *)
Definition idle_A : world := World net (fun _ => []) [].

Lemma improvement_is_announced_witness :
  status_of (update_table 3 nodeA (packet_from nodeB) idle_A) = Done /\
  forall i, List.length (queues (world_of (update_table 3 nodeA (packet_from nodeB) idle_A)) i)
            = if Nat.eqb i 0 then 0 else if Nat.leb i 3 then 1 else 0.
Proof.
  destruct (improvement_is_announced 0 nodeA (packet_from nodeB) idle_A
              (fst (relax net nodeA (packet_from nodeB))) 0)
    as (Hs & _ & _ & _ & _ & Hqs);
    [reflexivity|reflexivity|reflexivity|reflexivity| |].
  - repeat constructor; eexists; (split; [reflexivity|discriminate]).
  - split; [exact Hs|]. intros i. rewrite Hqs.
    destruct i as [|[|[|[|i]]]]; reflexivity.
Defined.

End ActorExtras.

(** ** [main.py]: the registry the workers start from *)

Section SetupExtras.
Import Node Actor.
Local Open Scope float_scope.

(** The nodes under their names, with the queues numbered from [q]. *)
Fixpoint numbered (q : nat) (nodes : list t) : registry :=
  match nodes with
  | [] => []
  | node :: rest => (name node, with_queue node q) :: numbered (S q) rest
  end.

(** What identifies an entry of the registry: its key, and the name and
    the queue of its node. *)
Definition badge (entry : string * t) : string * string * option nat :=
  (fst entry, name (snd entry), queue (snd entry)).

Definition skeleton (network : registry) : list (string * string * option nat) :=
  List.map badge network.

Lemma keys_numbered nodes : forall q, Dict.keys (numbered q nodes) = List.map name nodes.
Proof.
  induction nodes as [|node rest IH]; intros q; simpl; [reflexivity|].
  f_equal. apply IH.
Qed.

Lemma queues_numbered nodes : forall q,
  List.map queue (Dict.values (numbered q nodes)) = List.map Some (seq q (List.length nodes)).
Proof.
  induction nodes as [|node rest IH]; intros q; simpl; [reflexivity|].
  f_equal. apply IH.
Qed.

Lemma In_numbered nodes : forall q key node,
  In (key, node) (numbered q nodes) ->
  exists node0 q0, In node0 nodes /\ key = name node0 /\ node = with_queue node0 q0.
Proof.
  induction nodes as [|n rest IH]; intros q key node; simpl; [tauto|].
  intros [[= <- <-]|Hin]; [eauto 6|].
  destruct (IH _ _ _ Hin) as (node0 & q0 & H0 & Hk & Hn). eauto 6.
Qed.

(** Lines 23-26 on nodes with distinct, new names. *)
Lemma publish_fresh nodes : forall q acc,
  NoDup (List.map name nodes) ->
  (forall node, In node nodes -> ~ In (name node) (Dict.keys acc)) ->
  Main.publish nodes q acc = acc ++ numbered q nodes.
Proof.
  induction nodes as [|node rest IH]; intros q acc Hnd Hfresh; simpl.
  - rewrite app_nil_r. reflexivity.
  - inversion Hnd as [|? ? Hnot Hnd']; subst.
    assert (E : Dict.contains acc (name node) = false).
    { destruct (Dict.contains acc (name node)) eqn:E; [|reflexivity].
      apply contains_In in E. exfalso. apply (Hfresh node); [left; reflexivity|exact E]. }
    rewrite (setitem_absent _ _ _ E). rewrite IH.
    + rewrite <- app_assoc. reflexivity.
    + exact Hnd'.
    + intros n Hn Hin. unfold Dict.keys in Hin. rewrite List.map_app in Hin.
      apply in_app_or in Hin. destruct Hin as [Hin|[Heq|[]]].
      * apply (Hfresh n); [right; exact Hn|exact Hin].
      * simpl in Heq. apply Hnot. rewrite Heq. apply in_map, Hn.
Qed.

Lemma skeleton_keys (net : registry) :
  Dict.keys net = List.map (fun b => fst (fst b)) (skeleton net).
Proof.
  unfold skeleton, Dict.keys. rewrite List.map_map. reflexivity.
Qed.

Lemma skeleton_queues (net : registry) :
  List.map queue (Dict.values net) = List.map snd (skeleton net).
Proof.
  unfold skeleton, Dict.values. rewrite !List.map_map. reflexivity.
Qed.

Lemma skeleton_get (net : registry) k nm q :
  Dict.wf net -> In (k, nm, q) (skeleton net) ->
  exists n0, Dict.get net k = Some n0 /\ name n0 = nm /\ queue n0 = q.
Proof.
  unfold Dict.wf. induction net as [|[k0 v0] net IH]; simpl; [tauto|].
  intros Hwf [Heq|Hin].
  - unfold badge in Heq. simpl in Heq. injection Heq as <- <- <-.
    rewrite String.eqb_refl. eauto.
  - inversion Hwf as [|? ? Hnot Hwf']; subst.
    destruct (String.eqb_spec k0 k) as [->|Hne].
    + exfalso. apply Hnot. rewrite skeleton_keys.
      apply (in_map (fun b => fst (fst b))) in Hin. exact Hin.
    + apply IH; assumption.
Qed.

Lemma skeleton_setitem (net : registry) k n n0 :
  Dict.get net k = Some n0 -> name n0 = name n -> queue n0 = queue n ->
  skeleton (Dict.setitem net k n) = skeleton net.
Proof.
  intros Hget Hname Hqueue. induction net as [|[k0 v0] net IH]; simpl in *; [discriminate|].
  destruct (String.eqb k0 k).
  - injection Hget as ->. simpl. unfold badge. simpl. rewrite Hname, Hqueue. reflexivity.
  - simpl. f_equal. apply IH, Hget.
Qed.

Lemma get_In_item (net : registry) k n : Dict.get net k = Some n -> In (k, n) net.
Proof.
  induction net as [|[k0 v0] net IH]; simpl; [discriminate|].
  destruct (String.eqb_spec k0 k) as [->|Hne]; [intros [= ->]; tauto|auto].
Qed.

(** Lines 28-31: the loop rewrites the entries one by one; the keys, the
    names and the queues stay, and the entry of an item ends as that item
    normalised against a registry with the same keys, names and queues. *)
Lemma normalise_all_spec items : forall net,
  Dict.wf net ->
  (forall entry, In entry items -> In (badge entry) (skeleton net)) ->
  NoDup (List.map fst items) ->
  skeleton (Main.normalise_all items net) = skeleton net /\
  (forall k, ~ In k (List.map fst items) ->
     Dict.get (Main.normalise_all items net) k = Dict.get net k) /\
  (forall k n, In (k, n) items ->
     exists net1,
       skeleton net1 = skeleton net /\
       Dict.get (Main.normalise_all items net) k = Some (normalised n net1)).
Proof.
  induction items as [|[key node] rest IH]; intros net Hwf Hin Hnd; simpl.
  { split; [reflexivity|]. split; [reflexivity|]. intros k n []. }
  inversion Hnd as [|? ? Hnot Hnd']; subst.
  destruct (skeleton_get net key (name node) (queue node) Hwf (Hin _ (or_introl eq_refl)))
    as (n0 & Hget & Hname & Hqueue).
  set (net2 := Dict.setitem net key (normalised node net)).
  assert (Hsk : skeleton net2 = skeleton net).
  { apply (skeleton_setitem net key _ n0); assumption. }
  destruct (IH net2) as (Hsk' & Hother & Hitems).
  - unfold Dict.wf. rewrite skeleton_keys, Hsk, <- skeleton_keys. exact Hwf.
  - intros entry He. rewrite Hsk. apply Hin. right; exact He.
  - exact Hnd'.
  - split; [congruence|]. split.
    + intros k Hk. simpl in Hk. rewrite Hother by tauto.
      unfold net2. apply get_setitem_ne. tauto.
    + intros k n [[= <- <-]|Hrest].
      * exists net. split; [reflexivity|]. rewrite (Hother key Hnot).
        unfold net2. apply get_setitem_eq.
      * destruct (Hitems k n Hrest) as (net1 & H1 & H2).
        exists net1. split; [congruence|exact H2].
Qed.

(** What [main] hands to the workers. When the file parses, the registry
    holds one node per key that [parse_links] returned, in that order, each
    under its own name and with a queue of its own (the queues are numbered
    in the order of the registry). The table of each node has distinct
    keys, holds the node's own entry at cost 0, and has an entry for every
    node of the registry. *)
Theorem setup_gives_total_tables (py_float : string -> option float)
    (lines : list string) (network : registry) :
  Main.setup py_float lines = Ok network ->
  (exists links,
     Parse.parse_links py_float lines = Ok links /\ Dict.keys network = Dict.keys links) /\
  Dict.wf network /\
  List.map queue (Dict.values network) = List.map Some (seq 0 (List.length network)) /\
  forall key node, Dict.get network key = Some node ->
    name node = key /\
    Dict.wf (map node) /\
    Dict.get (map node) key = Some (HopInfo.Build key 0) /\
    forall other, In other (Dict.keys network) -> Dict.contains (map node) other = true.
Proof.
  unfold Main.setup. intros Hrun.
  destruct (Parse.parse_links py_float lines) as [links|e] eqn:Hparse; [|discriminate].
  unfold Parse.parse_links in Hparse.
  destruct (parse_lines_invariant py_float _ _ _ Hparse) as (Hwf & Hled & _);
    [constructor|constructor|].
  destruct (from_links_on_self_led links Hled) as (nodes & Hfrom & Hnames & Hnodes).
  rewrite Hfrom in Hrun. cbv zeta in Hrun. injection Hrun as <-.
  assert (Hnd : NoDup (List.map name nodes)) by (rewrite Hnames; exact Hwf).
  rewrite (publish_fresh nodes 0 Dict.empty Hnd) by (intros ? ? []).
  cbn [app Dict.empty]. unfold Dict.items.
  set (net0 := numbered 0 nodes).
  assert (Hkeys0 : Dict.keys net0 = List.map name nodes) by apply keys_numbered.
  destruct (normalise_all_spec net0 net0) as (Hsk & _ & Hitems).
  { unfold Dict.wf. rewrite Hkeys0. exact Hnd. }
  { intros entry He. apply in_map, He. }
  { change (NoDup (Dict.keys net0)). rewrite Hkeys0. exact Hnd. }
  set (net' := Main.normalise_all net0 net0) in *.
  assert (Hkeys : Dict.keys net' = Dict.keys net0)
    by (rewrite !skeleton_keys, Hsk; reflexivity).
  split; [exists links; split; [reflexivity|congruence]|].
  split; [unfold Dict.wf; rewrite Hkeys, Hkeys0; exact Hnd|].
  split.
  { rewrite skeleton_queues, Hsk, <- skeleton_queues. unfold net0.
    rewrite queues_numbered. f_equal. f_equal.
    transitivity (List.length (Dict.keys net')); [|unfold Dict.keys; apply length_map].
    rewrite Hkeys, Hkeys0. symmetry. apply length_map. }
  intros key node Hget.
  assert (Hkey : In key (Dict.keys net0)) by (rewrite <- Hkeys; apply get_In; eauto).
  unfold Dict.keys in Hkey. apply in_map_iff in Hkey. destruct Hkey as ([k n] & Hk & Hentry).
  simpl in Hk. subst k.
  destruct (Hitems key n Hentry) as (net1 & Hsk1 & Hget1).
  rewrite Hget in Hget1. injection Hget1 as ->.
  destruct (In_numbered nodes 0 key n Hentry) as (node0 & q0 & Hnode0 & -> & ->).
  rewrite Forall_forall in Hnodes. destruct (Hnodes node0 Hnode0) as (Hwf0 & _ & Hself).
  unfold normalised. cbn [name map queue with_queue].
  split; [reflexivity|]. split; [apply extend_wf, Hwf0|].
  split; [apply extend_keeps, Hself|].
  intros other Hother. apply contains_In.
  destruct (string_dec other (name node0)) as [->|Hne].
  { apply get_In. eexists. apply extend_keeps, Hself. }
  assert (Hother1 : In other (Dict.keys net1)).
  { rewrite skeleton_keys, Hsk1, <- skeleton_keys, <- Hkeys. exact Hother. }
  unfold Dict.keys in Hother1. apply in_map_iff in Hother1.
  destruct Hother1 as ([k1 o] & Hk1 & Ho). simpl in Hk1. subst k1.
  assert (Hname : name o = other).
  { apply (in_map badge) in Ho. fold (skeleton net1) in Ho. rewrite Hsk1 in Ho.
    unfold skeleton in Ho. apply in_map_iff in Ho. destruct Ho as ([k2 o2] & Hb & Ho2).
    unfold badge in Hb. simpl in Hb. injection Hb as -> <- _.
    destruct (In_numbered nodes 0 _ _ Ho2) as (n2 & q2 & _ & -> & ->). reflexivity. }
  rewrite <- Hname. apply extend_covers, in_neighbours. split.
  - unfold Dict.values. apply (in_map snd) in Ho. exact Ho.
  - simpl. congruence.
Qed.

End SetupExtras.

(** The file of three lines: two nodes, each with the other in its table. *)
Lemma setup_gives_total_tables_witness :
  exists network,
    Main.setup PyFloat.float_of_str small_file = Ok network /\
    Dict.keys network = ["A"; "B"]%string /\
    List.map Node.queue (Dict.values network) = [Some 0; Some 1] /\
    Dict.wf network.
Proof.
  eexists. split; [reflexivity|]. split; [reflexivity|]. split; [reflexivity|].
  destruct (setup_gives_total_tables PyFloat.float_of_str small_file _ eq_refl)
    as (_ & Hwf & _).
  exact Hwf.
Defined.
